(** * Kalman filter toolkit of [my_kalman_filter1.py]

    A shallow embedding of the class [KalmanFilter] (methods [evolve],
    [estimate], [predict], [rewind]) and the properties its specification
    states about it.

    Modelling choices.
    - Numbers.  Python floats are idealised as the elements of an ordered
      field [K] ([realFieldType]); the statements that the specification
      qualifies by "within floating-point tolerance" are stated as exact
      equalities of that field.  Closed examples are evaluated at [rat].
    - Arrays.  A numpy array of shape [(n,)] is a column vector ['cV[K]_n],
      one of shape [(m,n)] a matrix ['M[K]_(m,n)]; [A @ B] is [A *m B],
      [A.T] is [A^T].  A Python list of arrays is a [seq].
    - Exceptions.  A call either returns a value or raises; a method is a
      function into [result T = exn + T].
    - Modes.  The flag [one_d] selects one of two branches in every method;
      [MatrixMode] holds the branches for [one_d = False] (attributes are
      arrays) and [ScalarMode] those for [one_d = True] (attributes are
      Python floats).
    - Randomness.  [np.random] is a global generator; its state is threaded
      explicitly through [evolve]. *)

From HB Require Import structures.
From mathcomp Require Import boot order algebra.

Set Implicit Arguments.
Unset Strict Implicit.
Unset Printing Implicit Defensive.

Import Order.TTheory GRing.Theory Num.Theory.
Local Open Scope ring_scope.

(** ** Exceptions and the error monad *)

(** The exceptions the methods can raise: [ValueError] (numpy: shape
    checks, negative scale, impossible reshape), [LinAlgError]
    ([scipy.linalg.inv] on a singular matrix) and [ZeroDivisionError]
    (Python's [1/0.0]). *)
Inductive exn : Type :=
  | ValueError
  | LinAlgError
  | ZeroDivisionError.

Definition result (T : Type) : Type := (exn + T)%type.

Definition ret {T : Type} (x : T) : result T := inr x.
Definition raise {T : Type} (e : exn) : result T := inl e.

Definition bind {T U : Type} (c : result T) (k : T -> result U) : result U :=
  match c with
  | inl e => inl e
  | inr x => k x
  end.

Notation "x <- c ;; k" := (bind c (fun x => k))
  (at level 61, c at next level, right associativity).

Definition raises {T : Type} (c : result T) : bool :=
  if c is inl _ then true else false.

(** [for i in range(N): st = body(i, st)], starting the index at [i]. *)
Fixpoint for_loop {S : Type} (body : nat -> S -> result S)
    (i N : nat) (st : S) : result S :=
  match N with
  | 0%N => ret st
  | N'.+1 => st' <- body i st ;; for_loop body i.+1 N' st'
  end.

Definition for_range {S : Type} (N : nat) (body : nat -> S -> result S)
    (st : S) : result S :=
  for_loop body 0 N st.

(** ** The library functions the class calls *)

Section Numpy.

Variable K : realFieldType.

(** [scipy.linalg.inv(A)] on a square matrix: the inverse, or
    [LinAlgError] ("singular matrix"). *)
Definition inv (n : nat) (A : 'M[K]_n) : result 'M[K]_n :=
  if A \in unitmx then ret (invmx A) else raise LinAlgError.

(** Python's [1/a] on floats. *)
Definition pydiv1 (a : K) : result K :=
  if a == 0 then raise ZeroDivisionError else ret a^-1.

(** [np.array(rows).reshape((k, n))], [rows] a list of arrays of shape
    [(n,)]: the element counts must agree, and the result has the first
    [k] rows of the data (all of them, as the counts agree). *)
Definition reshape (n k : nat) (rows : seq 'cV[K]_n) : result (seq 'cV[K]_n) :=
  if (size rows * n == k * n)%N then ret (take k rows) else raise ValueError.

(** The state of the global generator [np.random], and what it draws:
    [draw_mvn g cov] is a zero-mean sample with covariance [cov];
    [gauss g] is a standard normal sample.  Each returns the next state. *)
Variable G : Type.
Variable draw_mvn : G -> forall n : nat, 'M[K]_n -> 'cV[K]_n * G.
Variable gauss : G -> K * G.

(** [np.random.multivariate_normal(mean, cov)], [cov] square: raises
    [ValueError] ("mean and cov must have same length") unless
    [mean.shape[0] == cov.shape[0]]; otherwise the sample is the mean plus
    a zero-mean draw. *)
Definition multivariate_normal (k n : nat) (mean : 'cV[K]_k) (cov : 'M[K]_n)
    (g : G) : result ('cV[K]_n * G) :=
  match @eqP _ k n with
  | ReflectT e =>
      let: (w, g') := draw_mvn g cov in
      ret (castmx (e, erefl 1%N) mean + w, g')
  | ReflectF _ => raise ValueError
  end.

(** [np.random.normal(loc, scale)]: raises [ValueError] ("scale < 0") on a
    negative scale; otherwise [loc + scale * gauss]. *)
Definition normal (loc scale : K) (g : G) : result (K * G) :=
  if scale < 0 then raise ValueError
  else let: (e, g') := gauss g in ret (loc + scale * e, g').

End Numpy.

(** ** The class, matrix mode ([one_d = False]) *)

Module MatrixMode.
Section Methods.

Variable K : realFieldType.
Variables n m : nat.

(** The attributes set by [__init__], with the shapes of its docstring. *)
Record KalmanFilter : Type := Build {
  F : 'M[K]_n;
  Q : 'M[K]_n;
  H : 'M[K]_(m, n);
  R : 'M[K]_m;
  u : 'cV[K]_n
}.

Variable self : KalmanFilter.

Section Evolve.

Variable G : Type.
Variable draw_mvn : G -> forall d : nat, 'M[K]_d -> 'cV[K]_d * G.

(** The local variables of [evolve] that its loop changes: [x0], [x], [z],
    and the generator. *)
Definition evolve_state : Type :=
  ('cV[K]_n * seq 'cV[K]_n * seq 'cV[K]_m * G)%type.

Definition evolve_body (t : nat) (st : evolve_state) : result evolve_state :=
  let: (x0, x, z, g) := st in
  wg <- multivariate_normal draw_mvn (0 : 'cV[K]_4) (Q self) g ;;
  vg <- multivariate_normal draw_mvn (0 : 'cV[K]_2) (R self) wg.2 ;;
  let x1 := F self *m x0 + u self + wg.1 in
  let z1 := H self *m x0 + vg.1 in
  ret (x1, rcons x x1, rcons z z1, vg.2).

Definition evolve (x0 : 'cV[K]_n) (N : nat) (g : G)
    : result (seq 'cV[K]_n * seq 'cV[K]_m * G) :=
  st <- for_range N evolve_body (x0, [:: x0], [::], g) ;;
  let: (_, x, z, g') := st in ret (x, z, g').

End Evolve.

(** The per-step quantities of [estimate]. *)
Definition predict_x (x0 : 'cV[K]_n) : 'cV[K]_n := F self *m x0 + u self.
Definition predict_P (P0 : 'M[K]_n) : 'M[K]_n :=
  F self *m P0 *m (F self)^T + Q self.
Definition innovation_cov (new_P : 'M[K]_n) : 'M[K]_m :=
  H self *m new_P *m (H self)^T + R self.

Definition estimate_state : Type :=
  ('cV[K]_n * 'M[K]_n * seq 'cV[K]_n * seq 'M[K]_n)%type.

Definition estimate_body (z : seq 'cV[K]_m) (i : nat) (st : estimate_state)
    : result estimate_state :=
  let: (x0, P0, out, P) := st in
  let I : 'M[K]_n := 1%:M in
  let new_x := predict_x x0 in
  let new_P := predict_P P0 in
  let y_t := nth 0 z i - H self *m new_x in
  let Sk := innovation_cov new_P in
  Sk_inv <- inv Sk ;;
  let Kk := new_P *m (H self)^T *m Sk_inv in
  let final_x := new_x + Kk *m y_t in
  let final_P := (I - Kk *m H self) *m new_P in
  ret (final_x, final_P, rcons out final_x, rcons P final_P).

Definition estimate (x0 : 'cV[K]_n) (P0 : 'M[K]_n) (z : seq 'cV[K]_m)
    : result (seq 'cV[K]_n * seq 'M[K]_n) :=
  let N := size z in
  st <- for_range N (estimate_body z) (x0, P0, [::], [::]) ;;
  let: (_, _, out, P) := st in ret (out, P).

Definition predict_body (i : nat) (new_x : seq 'cV[K]_n)
    : result (seq 'cV[K]_n) :=
  ret (rcons new_x (F self *m last 0 new_x + u self)).

Definition predict (x : 'cV[K]_n) (k : nat) : result (seq 'cV[K]_n) :=
  new_x <- for_range k.-1 predict_body [:: x] ;;
  reshape k new_x.

Definition rewind_body (i : nat) (new_x : seq 'cV[K]_n)
    : result (seq 'cV[K]_n) :=
  F_inv <- inv (F self) ;;
  ret (rcons new_x (F_inv *m (last 0 new_x - u self))).

Definition rewind (x : 'cV[K]_n) (k : nat) : result (seq 'cV[K]_n) :=
  new_x <- for_range k.-1 rewind_body [:: x] ;;
  reshape k new_x.

End Methods.
End MatrixMode.

(** ** The class, scalar mode ([one_d = True]) *)

Module ScalarMode.
Section Methods.

Variable K : realFieldType.

(** The attributes set by [__init__] when they are Python floats. *)
Record KalmanFilter : Type := Build {
  F : K;
  Q : K;
  H : K;
  R : K;
  u : K
}.

Variable self : KalmanFilter.

Section Evolve.

Variable G : Type.
Variable gauss : G -> K * G.

(** The loop of the scalar branch appends to [x] and [z] and advances the
    generator; it does not assign [x0]. *)
Definition evolve_state : Type := (seq K * seq K * G)%type.

Definition evolve_body (x0 : K) (t : nat) (st : evolve_state)
    : result evolve_state :=
  let: (x, z, g) := st in
  wg <- normal gauss 0 (Q self) g ;;
  vg <- normal gauss 0 (R self) wg.2 ;;
  let x1 := F self * x0 + u self + wg.1 in
  let z1 := H self * x0 + vg.1 in
  ret (rcons x x1, rcons z z1, vg.2).

Definition evolve (x0 : K) (N : nat) (g : G) : result (seq K * seq K * G) :=
  for_range N (evolve_body x0) ([:: x0], [::], g).

End Evolve.

Definition estimate_state : Type := (K * K * seq K * seq K)%type.

Definition estimate_body (z : seq K) (i : nat) (st : estimate_state)
    : result estimate_state :=
  let: (x0, P0, out, P) := st in
  let new_x := F self * x0 + u self in
  let new_P := (F self) ^+ 2 * P0 + Q self in
  let y_t := nth 0 z i - H self * new_x in
  let Sk := (H self) ^+ 2 * new_P + R self in
  Sk_inv <- pydiv1 Sk ;;
  let Kk := new_P * H self * Sk_inv in
  let final_x := new_x + Kk * y_t in
  let final_P := (1 - Kk * H self) * new_P in
  ret (final_x, final_P, rcons out final_x, rcons P final_P).

Definition estimate (x0 P0 : K) (z : seq K) : result (seq K * seq K) :=
  let N := size z in
  st <- for_range N (estimate_body z) (x0, P0, [::], [::]) ;;
  let: (_, _, out, P) := st in ret (out, P).

Definition predict_body (i : nat) (new_x : seq K) : result (seq K) :=
  ret (rcons new_x (F self * last 0 new_x + u self)).

Definition predict (x : K) (k : nat) : result (seq K) :=
  for_range k.-1 predict_body [:: x].

Definition rewind_body (i : nat) (new_x : seq K) : result (seq K) :=
  F_inv <- pydiv1 (F self) ;;
  ret (rcons new_x (F_inv * (last 0 new_x - u self))).

Definition rewind (x : K) (k : nat) : result (seq K) :=
  for_range k.-1 rewind_body [:: x].

End Methods.
End ScalarMode.

(** ** Quantities the properties are stated with *)

Section MatrixQuantities.

Variable K : realFieldType.
Variables n m : nat.
Variable self : MatrixMode.KalmanFilter K n m.

Let F := MatrixMode.F self.
Let H := MatrixMode.H self.
Let u := MatrixMode.u self.

(** One noise-free transition [F x + u] and its inverse [F^-1 (x - u)]. *)
Definition step (x : 'cV[K]_n) : 'cV[K]_n := F *m x + u.
Definition unstep (x : 'cV[K]_n) : 'cV[K]_n := invmx F *m (x - u).

(** The update half of a filter step, from the predicted pair
    [(new_x, new_P)] and the observation [zi]. *)
Definition kalman_gain (new_P : 'M[K]_n) : 'M[K]_(n, m) :=
  new_P *m H^T *m invmx (MatrixMode.innovation_cov self new_P).

Definition update_x (new_x : 'cV[K]_n) (new_P : 'M[K]_n) (zi : 'cV[K]_m)
    : 'cV[K]_n :=
  new_x + kalman_gain new_P *m (zi - H *m new_x).

Definition update_P (new_P : 'M[K]_n) : 'M[K]_n :=
  (1%:M - kalman_gain new_P *m H) *m new_P.

(** A whole filter step (predict, then update) on the pair [(x, P)]. *)
Definition filter_step (xP : 'cV[K]_n * 'M[K]_n) (zi : 'cV[K]_m)
    : 'cV[K]_n * 'M[K]_n :=
  let new_x := MatrixMode.predict_x self xP.1 in
  let new_P := MatrixMode.predict_P self xP.2 in
  (update_x new_x new_P zi, update_P new_P).

(** The pairs a run of filter steps goes through, the initial one left
    out. *)
Fixpoint filter_run (xP : 'cV[K]_n * 'M[K]_n) (zs : seq 'cV[K]_m)
    : seq ('cV[K]_n * 'M[K]_n) :=
  match zs with
  | [::] => [::]
  | zi :: zs' => let xP' := filter_step xP zi in xP' :: filter_run xP' zs'
  end.

(** The covariances do not depend on the observations: one filter step
    maps [P] to [cov_step P], and the innovation covariance [S] that step
    [j] (counted from 0) inverts, starting from [P0], is
    [innovation_at P0 j]. *)
Definition cov_step (P : 'M[K]_n) : 'M[K]_n :=
  update_P (MatrixMode.predict_P self P).

Definition innovation_at (P0 : 'M[K]_n) (j : nat) : 'M[K]_m :=
  MatrixMode.innovation_cov self
    (MatrixMode.predict_P self (iter j cov_step P0)).

(** Every innovation covariance met in [N] filter steps from the
    covariance [P] is invertible. *)
Fixpoint innovations_invertible (P : 'M[K]_n) (N : nat) : bool :=
  match N with
  | 0%N => true
  | N'.+1 =>
      (innovation_at P 0 \in unitmx)
      && innovations_invertible (cov_step P) N'
  end.

End MatrixQuantities.

Section Covariances.

Variable K : realFieldType.

Definition symmetric (n : nat) (P : 'M[K]_n) : Prop := P^T = P.

(** The quadratic form [a^T P a]. *)
Definition quad (n : nat) (P : 'M[K]_n) (a : 'cV[K]_n) : K :=
  (a^T *m P *m a) ord0 ord0.

Definition psd (n : nat) (P : 'M[K]_n) : Prop :=
  forall a : 'cV[K]_n, 0 <= quad P a.

Definition sym_psd (n : nat) (P : 'M[K]_n) : Prop := symmetric P /\ psd P.

End Covariances.

Section ScalarQuantities.

Variable K : realFieldType.
Variable self : ScalarMode.KalmanFilter K.

Let F := ScalarMode.F self.
Let u := ScalarMode.u self.

Definition step1 (x : K) : K := F * x + u.
Definition unstep1 (x : K) : K := F^-1 * (x - u).

(** The same parameters as 1x1 matrices and a length-1 vector. *)
Definition as_matrix : MatrixMode.KalmanFilter K 1 1 :=
  MatrixMode.Build (ScalarMode.F self)%:M (ScalarMode.Q self)%:M
    (ScalarMode.H self)%:M (ScalarMode.R self)%:M (ScalarMode.u self)%:M.

End ScalarQuantities.

(** ** The simulation, as a function of the draws *)

Section Simulation.

Variable K : realFieldType.
Variables n m : nat.
Variable self : MatrixMode.KalmanFilter K n m.
Variable G : Type.
Variable draw_mvn : G -> forall d : nat, 'M[K]_d -> 'cV[K]_d * G.

(** The states after [x0], the observations and the final generator of [N]
    simulation steps: each step draws [w] with covariance [Q], then [v]
    with covariance [R], observes the current state and moves on. *)
Fixpoint simulate (x0 : 'cV[K]_n) (N : nat) (g : G)
    : seq 'cV[K]_n * seq 'cV[K]_m * G :=
  match N with
  | 0%N => ([::], [::], g)
  | N'.+1 =>
      let wg := draw_mvn g (MatrixMode.Q self) in
      let vg := draw_mvn wg.2 (MatrixMode.R self) in
      let x1 := MatrixMode.F self *m x0 + MatrixMode.u self + wg.1 in
      let z1 := MatrixMode.H self *m x0 + vg.1 in
      let rest := simulate x1 N' vg.2 in
      (x1 :: rest.1.1, z1 :: rest.1.2, rest.2)
  end.

End Simulation.

(** ** Concrete models over the rationals *)

(** A generator whose draws are all zero. *)
Definition zero_mvn (g : unit) (d : nat) (cov : 'M[rat]_d) : 'cV[rat]_d * unit :=
  (0, g).

(** Scalar mode, [F = H = u = 1], no noise. *)
Definition counter1 : ScalarMode.KalmanFilter rat :=
  ScalarMode.Build 1 0 1 0 1.

(** Matrix mode in any dimension: [F = 0] is singular. *)
Definition stuck (n m : nat) : MatrixMode.KalmanFilter rat n m :=
  MatrixMode.Build 0 0 0 1%:M 0.

(** Matrix mode, state [(position, velocity)] in the plane, position
    observed, identity transition with drift, no noise. *)
Definition drift : MatrixMode.KalmanFilter rat (2 + 2) 2 :=
  MatrixMode.Build 1%:M 0 (row_mx 1%:M 0) 0 (col_mx (const_mx 1) (const_mx 1)).

(** The same with unit observation noise. *)
Definition noisy_drift : MatrixMode.KalmanFilter rat (2 + 2) 2 :=
  MatrixMode.Build 1%:M 0 (row_mx 1%:M 0) 1%:M (col_mx (const_mx 1) (const_mx 1)).

(** ** The generator after some draws *)

(** The state of the generator after [k] calls of [np.random.normal]. *)
Definition after_draws (K : realFieldType) (G : Type) (gauss : G -> K * G)
    (k : nat) (g : G) : G :=
  iter k (fun g' => (gauss g').2) g.

(** Matrix mode, state (position, velocity) in the plane, position
    observed, the position advancing by the velocity, no noise. *)
Definition ballistic : MatrixMode.KalmanFilter rat (2 + 2) 2 :=
  MatrixMode.Build (block_mx 1%:M 1%:M 0 1%:M) 0 (row_mx 1%:M 0) 0
    (col_mx 0 (const_mx 1)).

(** ** Positive definite matrices *)

Definition pd (K : realFieldType) (n : nat) (P : 'M[K]_n) : Prop :=
  forall a : 'cV[K]_n, a != 0 -> 0 < quad P a.

(** ** The demonstration functions [problem2] and [problem5] *)

Section Problems.

Variable K : realFieldType.

(** The decimal literal [.1]. *)
Definition tenth : K := 10%:R^-1.

(** [problem2()]: the projectile model.  The state is (position, velocity)
    in the plane, written in blocks of size 2. *)
Definition problem2 : MatrixMode.KalmanFilter K (2 + 2) 2 :=
  let Q : 'M[K]_(2 + 2) := tenth *: 1%:M in
  let R : 'M[K]_2 := 5000%:R *: 1%:M in
  let F : 'M[K]_(2 + 2) := block_mx 1%:M tenth%:M 0 1%:M in
  let H : 'M[K]_(2, 2 + 2) := row_mx 1%:M 0 in
  let u : 'cV[K]_(2 + 2) :=
    col_mx 0 (col_mx (0 : 'cV[K]_1) (- (98%:R / 100%:R))%:M) in
  MatrixMode.Build F Q H R u.

(** Rows [i:j] of an array. *)
Definition slice (T : Type) (i j : nat) (a : seq T) : seq T :=
  take (j - i) (drop i a).

(** [np.diff(a, axis=0)]: the differences of consecutive rows. *)
Definition diff (d : nat) (a : seq 'cV[K]_d) : seq 'cV[K]_d :=
  if a is r :: a' then pairmap (fun p q => q - p) r a' else [::].

(** [np.mean(a, axis=0)] of an array with at least one row (on an array
    without rows numpy returns nan). *)
Definition mean (d : nat) (a : seq 'cV[K]_d) : 'cV[K]_d :=
  (size a)%:R^-1 *: \sum_(r <- a) r.

(** The initial state estimate that [problem5] builds from the sliced
    observations: the first observed position, and the mean of the first
    eight finite-difference velocities. *)
Definition initial_estimate (z_slice : seq 'cV[K]_2) : 'cV[K]_(2 + 2) :=
  let z_initial := slice 0 9 z_slice in
  let z_diff := [seq tenth^-1 *: r | r <- diff z_initial] in
  let avg := mean z_diff in
  col_mx (nth 0 z_slice 0) avg.

Variable G : Type.
Variable draw_mvn : G -> forall d : nat, 'M[K]_d -> 'cV[K]_d * G.

(** [problem5(plot=False)], the model [KF] left out of the returned tuple
    and the final state of the generator added to it.  The index
    [z_slice[0]] is in range whenever it is reached: the reshape before it
    only succeeds on 1250 observations. *)
Definition problem5 (g : G)
    : result (seq 'cV[K]_(2 + 2) * seq 'M[K]_(2 + 2)
              * seq 'cV[K]_(2 + 2) * seq 'cV[K]_2 * G) :=
  let KF := problem2 in
  let start : 'cV[K]_(2 + 2) :=
    col_mx 0 (col_mx (300%:R%:M : 'cV[K]_1) 600%:R%:M) in
  xz <- MatrixMode.evolve KF draw_mvn start 1250 g ;;
  new_z <- reshape 1250 xz.1.2 ;;
  new_x <- reshape 1251 xz.1.1 ;;
  let z_slice := slice 200 800 new_z in
  let x0 := initial_estimate z_slice in
  let P0 := 10%:R ^+ 6 *: MatrixMode.Q KF in
  r <- MatrixMode.estimate KF x0 P0 z_slice ;;
  ret (r.1, r.2, new_x, z_slice, xz.2).

End Problems.

(** ** Loops and trajectories *)

Section LoopFacts.

Variable S : Type.

Lemma for_loopS (body : nat -> S -> result S) i N st :
  for_loop body i N.+1 st = st' <- body i st ;; for_loop body i.+1 N st'.
Proof. by []. Qed.

(** A loop whose body appends [f] of the last element builds a
    trajectory of [f]. *)
Lemma for_loop_traject (d : S) (f : S -> S)
    (body : nat -> seq S -> result (seq S)) :
  (forall i s, body i s = ret (rcons s (f (last d s)))) ->
  forall N i s, for_loop body i N s = ret (s ++ traject f (f (last d s)) N).
Proof.
move=> bodyE; elim=> [|N IH] i s /=; first by rewrite cats0.
by rewrite bodyE /= IH last_rcons cat_rcons.
Qed.

End LoopFacts.

(** Reversing a trajectory of [f] gives the trajectory of an inverse of
    [f], started at the far end. *)
Lemma rev_traject (T : Type) (f g : T -> T) (x : T) (N : nat) :
  cancel f g -> rev (traject f x N.+1) = traject g (iter N f x) N.+1.
Proof.
move=> fK; elim: N => [|N IH] //.
by rewrite trajectSr rev_rcons IH [in RHS]trajectS /= fK.
Qed.

Lemma last_trajectS (T : Type) (f : T -> T) (x : T) (N : nat) :
  last x (traject f x N.+1) = iter N f x.
Proof. by rewrite trajectS /= last_traject. Qed.

Lemma map_traject (T U : Type) (h : T -> U) (f : T -> T) (f' : U -> U) x N :
  (forall y, h (f y) = f' (h y)) ->
  map h (traject f x N) = traject f' (h x) N.
Proof. by move=> hf; elim: N x => [|N IH] x //=; rewrite IH hf. Qed.

Lemma nth_trajectS (T : Type) (d : T) (f : T -> T) x N i :
  (i.+1 < N)%N -> nth d (traject f x N) i.+1 = f (nth d (traject f x N) i).
Proof.
move=> ltiN.
have ltiN' : (i < N)%N by exact: ltnW.
rewrite (set_nth_default x) ?size_traject // nth_traject //.
by rewrite (set_nth_default x d) ?size_traject // nth_traject.
Qed.

Lemma nth_traject0 (T : Type) (d : T) (f : T -> T) x N :
  (0 < N)%N -> nth d (traject f x N) 0 = x.
Proof. by case: N. Qed.

(** ** [predict] and [rewind] as trajectories *)

Section Deterministic.

Variable K : realFieldType.

Section Matrix.

Variables n m : nat.
Variable self : MatrixMode.KalmanFilter K n m.

Let F := MatrixMode.F self.

Lemma stepK : F \in unitmx -> cancel (step self) (unstep self).
Proof. by move=> Fu x; rewrite /step /unstep addrK mulKmx. Qed.

Lemma unstepK : F \in unitmx -> cancel (unstep self) (step self).
Proof. by move=> Fu x; rewrite /step /unstep mulKVmx // subrK. Qed.

Lemma reshape_traject (f : 'cV[K]_n -> 'cV[K]_n) x k :
  reshape k (traject f x k) = ret (traject f x k).
Proof. by rewrite /reshape size_traject eqxx take_oversize // size_traject. Qed.

Lemma predict_traject x k :
  (0 < k)%N -> MatrixMode.predict self x k = ret (traject (step self) x k).
Proof.
case: k => // k _; rewrite /MatrixMode.predict /for_range /=.
by rewrite (for_loop_traject (d := 0) (f := step self)) //= reshape_traject.
Qed.

Lemma rewind_traject x k :
  (0 < k)%N -> F \in unitmx ->
  MatrixMode.rewind self x k = ret (traject (unstep self) x k).
Proof.
case: k => // k _ Fu; rewrite /MatrixMode.rewind /for_range /=.
rewrite (for_loop_traject (d := 0) (f := unstep self)) /= ?reshape_traject //.
by move=> i s; rewrite /MatrixMode.rewind_body /inv Fu.
Qed.

Lemma rewind_singular x k :
  (1 < k)%N -> F \notin unitmx ->
  MatrixMode.rewind self x k = raise LinAlgError.
Proof.
case: k => [|[|k]] // _ /negbTE Fu.
by rewrite /MatrixMode.rewind /for_range /= /MatrixMode.rewind_body /inv Fu.
Qed.

Lemma rewind_one x : MatrixMode.rewind self x 1 = ret [:: x].
Proof. by rewrite /MatrixMode.rewind /for_range /= /reshape /= mul1n eqxx. Qed.

End Matrix.

Section Scalar.

Variable self : ScalarMode.KalmanFilter K.

Let F := ScalarMode.F self.

Lemma step1K : F != 0 -> cancel (step1 self) (unstep1 self).
Proof. by move=> F0 x; rewrite /step1 /unstep1 addrK mulKf. Qed.

Lemma unstep1K : F != 0 -> cancel (unstep1 self) (step1 self).
Proof. by move=> F0 x; rewrite /step1 /unstep1 mulVKf // subrK. Qed.

Lemma predict1_traject x k :
  (0 < k)%N -> ScalarMode.predict self x k = ret (traject (step1 self) x k).
Proof.
case: k => // k _; rewrite /ScalarMode.predict /for_range /=.
by rewrite (for_loop_traject (d := 0) (f := step1 self)).
Qed.

Lemma rewind1_traject x k :
  (0 < k)%N -> F != 0 ->
  ScalarMode.rewind self x k = ret (traject (unstep1 self) x k).
Proof.
case: k => // k _ /negbTE F0; rewrite /ScalarMode.rewind /for_range /=.
rewrite (for_loop_traject (d := 0) (f := unstep1 self)) //.
by move=> i s; rewrite /ScalarMode.rewind_body /pydiv1 F0.
Qed.

Lemma rewind1_singular x k :
  (1 < k)%N -> F = 0 ->
  ScalarMode.rewind self x k = raise ZeroDivisionError.
Proof.
case: k => [|[|k]] // _ F0.
rewrite /ScalarMode.rewind /for_range /= /ScalarMode.rewind_body /pydiv1.
by rewrite -/F F0 eqxx.
Qed.

End Scalar.
End Deterministic.

(** ** Forecasting: [predict] *)

(** C6.  For every state [x] and horizon [k >= 1], [predict(x, k)] returns
    exactly [k] states, in forward order: element 0 is [x] itself and
    element [i+1] is [F (element i) + u].  Both branches of the method
    (matrix mode on [self], scalar mode on [self1]) behave so. *)
Theorem predict_spec (K : realFieldType) (n m : nat)
    (self : MatrixMode.KalmanFilter K n m) (self1 : ScalarMode.KalmanFilter K)
    (x : 'cV[K]_n) (x1 : K) (k : nat) :
  (0 < k)%N ->
  (exists xs : seq 'cV[K]_n,
     [/\ MatrixMode.predict self x k = ret xs, size xs = k, nth 0 xs 0 = x
       & forall i, (i.+1 < k)%N ->
           nth 0 xs i.+1 = MatrixMode.F self *m nth 0 xs i + MatrixMode.u self])
  /\
  (exists xs : seq K,
     [/\ ScalarMode.predict self1 x1 k = ret xs, size xs = k, nth 0 xs 0 = x1
       & forall i, (i.+1 < k)%N ->
           nth 0 xs i.+1 = ScalarMode.F self1 * nth 0 xs i + ScalarMode.u self1]).
Proof.
move=> k_gt0; split.
- exists (traject (step self) x k); split.
  + exact: predict_traject.
  + exact: size_traject.
  + exact: nth_traject0.
  + by move=> i ltik; rewrite nth_trajectS.
- exists (traject (step1 self1) x1 k); split.
  + exact: predict1_traject.
  + exact: size_traject.
  + exact: nth_traject0.
  + by move=> i ltik; rewrite nth_trajectS.
Qed.

Lemma predict_spec_witness :
  (exists xs : seq 'cV[rat]_4,
     [/\ MatrixMode.predict drift 0 3 = ret xs, size xs = 3%N, nth 0 xs 0 = 0
       & forall i, (i.+1 < 3)%N ->
           nth 0 xs i.+1 = MatrixMode.F drift *m nth 0 xs i + MatrixMode.u drift])
  /\
  (exists xs : seq rat,
     [/\ ScalarMode.predict counter1 0 3 = ret xs, size xs = 3%N, nth 0 xs 0 = 0
       & forall i, (i.+1 < 3)%N ->
           nth 0 xs i.+1
           = ScalarMode.F counter1 * nth 0 xs i + ScalarMode.u counter1]).
Proof. exact: (@predict_spec rat 4 2 drift counter1 0 0 3 isT). Defined.

(** ** Reconstruction: [rewind] *)

Lemma zero_not_unitmx (n : nat) : (0 : 'M[rat]_n.+1) \notin unitmx.
Proof. by rewrite unitmxE det0 unitr0. Qed.

(** C7, as the specification states it, fails for [k = 1]: the inverse of
    [F] is taken inside the loop, which [range(0)] never enters, so a
    singular [F] goes unnoticed and the single state is returned. *)
Lemma rewind_once_ignores_singular :
  MatrixMode.F (stuck 2 2) \notin unitmx
  /\ MatrixMode.rewind (stuck 2 2) (const_mx 1) 1 = ret [:: const_mx 1].
Proof. by split; [exact: zero_not_unitmx | exact: rewind_one]. Qed.

(** C7, amended.  For every state [x] and index [k >= 1]: if [F] is
    invertible, [rewind(x, k)] returns exactly [k] states, the first one
    [x] and element [i+1] equal to [F^-1 (element i - u)]; if [F] is not
    invertible, the call raises ([LinAlgError] in matrix mode,
    [ZeroDivisionError] in scalar mode) when [k >= 2], and returns the
    single state [x] when [k = 1]. *)
Theorem rewind_spec (K : realFieldType) (n m : nat)
    (self : MatrixMode.KalmanFilter K n m) (self1 : ScalarMode.KalmanFilter K)
    (x : 'cV[K]_n) (x1 : K) (k : nat) :
  (0 < k)%N ->
  [/\ MatrixMode.F self \in unitmx ->
      exists xs : seq 'cV[K]_n,
        [/\ MatrixMode.rewind self x k = ret xs, size xs = k, nth 0 xs 0 = x
          & forall i, (i.+1 < k)%N ->
              nth 0 xs i.+1
              = invmx (MatrixMode.F self) *m (nth 0 xs i - MatrixMode.u self)],
      MatrixMode.F self \notin unitmx ->
      MatrixMode.rewind self x k
      = if k == 1%N then ret [:: x] else raise LinAlgError,
      ScalarMode.F self1 != 0 ->
      exists xs : seq K,
        [/\ ScalarMode.rewind self1 x1 k = ret xs, size xs = k, nth 0 xs 0 = x1
          & forall i, (i.+1 < k)%N ->
              nth 0 xs i.+1
              = (ScalarMode.F self1)^-1 * (nth 0 xs i - ScalarMode.u self1)]
    & ScalarMode.F self1 = 0 ->
      ScalarMode.rewind self1 x1 k
      = if k == 1%N then ret [:: x1] else raise ZeroDivisionError].
Proof.
move=> k_gt0; split.
- move=> Fu; exists (traject (unstep self) x k); split.
  + exact: rewind_traject.
  + exact: size_traject.
  + exact: nth_traject0.
  + by move=> i ltik; rewrite nth_trajectS.
- move=> Fs; case: k k_gt0 => [|[|k]] // _; first exact: rewind_one.
  exact: rewind_singular.
- move=> F0; exists (traject (unstep1 self1) x1 k); split.
  + exact: rewind1_traject.
  + exact: size_traject.
  + exact: nth_traject0.
  + by move=> i ltik; rewrite nth_trajectS.
- move=> F0; case: k k_gt0 => [|[|k]] // _.
  exact: rewind1_singular.
Qed.

Lemma rewind_spec_witness :
  MatrixMode.rewind (stuck 2 2) (const_mx 1) 2 = raise LinAlgError
  /\ exists xs : seq rat,
       [/\ ScalarMode.rewind counter1 5 3 = ret xs, size xs = 3%N,
           nth 0 xs 0 = 5
         & forall i, (i.+1 < 3)%N ->
             nth 0 xs i.+1
             = (ScalarMode.F counter1)^-1 * (nth 0 xs i - ScalarMode.u counter1)].
Proof.
have [_ sing reg _] :=
  @rewind_spec rat 2 2 (stuck 2 2) counter1 (const_mx 1) 5 2 isT.
have [_ _ reg3 _] :=
  @rewind_spec rat 2 2 (stuck 2 2) counter1 (const_mx 1) 5 3 isT.
split; first exact: (sing (zero_not_unitmx 1)).
exact: reg3.
Defined.

(** ** Forward/backward consistency *)

(** C8.  For an invertible [F] and [k >= 1]: rewinding [k] states from the
    last element of [predict(x, k)] returns that trajectory in reverse
    order (so the same states), and predicting [k] states from the last
    element of [rewind(x, k)] returns that reconstruction in reverse
    order.  Both branches of the methods behave so. *)
Theorem forward_backward (K : realFieldType) (n m : nat)
    (self : MatrixMode.KalmanFilter K n m) (self1 : ScalarMode.KalmanFilter K)
    (x : 'cV[K]_n) (x1 : K) (k : nat) :
  (0 < k)%N ->
  (MatrixMode.F self \in unitmx ->
   (exists2 xs, MatrixMode.predict self x k = ret xs
              & MatrixMode.rewind self (last x xs) k = ret (rev xs))
   /\
   (exists2 ys, MatrixMode.rewind self x k = ret ys
              & MatrixMode.predict self (last x ys) k = ret (rev ys)))
  /\
  (ScalarMode.F self1 != 0 ->
   (exists2 xs, ScalarMode.predict self1 x1 k = ret xs
              & ScalarMode.rewind self1 (last x1 xs) k = ret (rev xs))
   /\
   (exists2 ys, ScalarMode.rewind self1 x1 k = ret ys
              & ScalarMode.predict self1 (last x1 ys) k = ret (rev ys))).
Proof.
case: k => // k _; split=> [Fu|F0]; split.
- exists (traject (step self) x k.+1); first exact: predict_traject.
  rewrite last_trajectS (rev_traject _ _ (stepK Fu)).
  exact: rewind_traject.
- exists (traject (unstep self) x k.+1); first exact: rewind_traject.
  rewrite last_trajectS (rev_traject _ _ (unstepK Fu)).
  exact: predict_traject.
- exists (traject (step1 self1) x1 k.+1); first exact: predict1_traject.
  rewrite last_trajectS (rev_traject _ _ (step1K F0)).
  exact: rewind1_traject.
- exists (traject (unstep1 self1) x1 k.+1); first exact: rewind1_traject.
  rewrite last_trajectS (rev_traject _ _ (unstep1K F0)).
  exact: predict1_traject.
Qed.

Lemma forward_backward_witness :
  (exists2 xs, MatrixMode.predict drift 0 3 = ret xs
             & MatrixMode.rewind drift (last 0 xs) 3 = ret (rev xs))
  /\
  (exists2 ys, ScalarMode.rewind counter1 5 3 = ret ys
             & ScalarMode.predict counter1 (last 5 ys) 3 = ret (rev ys)).
Proof.
have [mx sc] := @forward_backward rat 4 2 drift counter1 0 5 3 isT.
split; first by case: (mx (unitmx1 _ _)).
by case: (sc isT).
Defined.

(** ** Filtering: [estimate] *)

Section Filter.

Variable K : realFieldType.
Variables n m : nat.
Variable self : MatrixMode.KalmanFilter K n m.

Let F := MatrixMode.F self.
Let Q := MatrixMode.Q self.
Let H := MatrixMode.H self.
Let R := MatrixMode.R self.
Let u := MatrixMode.u self.

(** One pass through the loop body: it raises exactly when the innovation
    covariance is singular, and otherwise performs [filter_step]. *)
Lemma estimate_body_step z i x P out Ps :
  MatrixMode.estimate_body self z i (x, P, out, Ps)
  = if MatrixMode.innovation_cov self (MatrixMode.predict_P self P) \in unitmx
    then let xP := filter_step self (x, P) (nth 0 z i) in
         ret (xP.1, xP.2, rcons out xP.1, rcons Ps xP.2)
    else raise LinAlgError.
Proof. by rewrite /MatrixMode.estimate_body /inv; case: ifP. Qed.

Lemma innovations_invertibleP P N :
  reflect (forall j, (j < N)%N -> innovation_at self P j \in unitmx)
          (innovations_invertible self P N).
Proof.
elim: N P => [|N IH] P /=; first by apply: ReflectT.
apply: (iffP andP) => [[S0 /IH SN] [|j] // ltj|all_inv].
  by rewrite /innovation_at iterSr; apply: SN.
split; first exact: all_inv.
by apply/IH => j ltj; have := all_inv j.+1 ltj; rewrite /innovation_at iterSr.
Qed.

Lemma estimate_loop z c i x P out Ps :
  for_loop (MatrixMode.estimate_body self z) i c (x, P, out, Ps)
  = if innovations_invertible self P c
    then let tr := filter_run self (x, P) [seq nth 0 z j | j <- iota i c] in
         ret ((last (x, P) tr).1, (last (x, P) tr).2,
              out ++ unzip1 tr, Ps ++ unzip2 tr)
    else raise LinAlgError.
Proof.
elim: c i x P out Ps => [|c IH] i x P out Ps; first by rewrite /= !cats0.
rewrite for_loopS estimate_body_step [innovations_invertible _ _ _]/=.
case: ifP => //= Su.
rewrite IH /filter_step /=; case: ifP => // _.
by rewrite !cat_rcons.
Qed.

Lemma estimate_run x0 P0 z :
  MatrixMode.estimate self x0 P0 z
  = if innovations_invertible self P0 (size z)
    then let tr := filter_run self (x0, P0) z in ret (unzip1 tr, unzip2 tr)
    else raise LinAlgError.
Proof.
rewrite /MatrixMode.estimate /for_range estimate_loop.
by case: ifP => //= _; rewrite -/(mkseq _ _) mkseq_nth.
Qed.

Lemma size_filter_run xP zs : size (filter_run self xP zs) = size zs.
Proof. by elim: zs xP => [|zi zs IH] xP //=; rewrite IH. Qed.

Lemma nth_filter_run d xP zs i :
  (i < size zs)%N ->
  nth d (filter_run self xP zs) i
  = filter_step self (nth d (xP :: filter_run self xP zs) i) (nth 0 zs i).
Proof.
elim: zs xP i => [|zi zs IH] xP [|i] //= lti.
by rewrite IH.
Qed.

(** The invertibility hypothesis, read along the covariances of a run. *)
Lemma innovations_invertible_nth P0 N xP zs i :
  innovations_invertible self P0 N -> xP.2 = P0 -> size zs = N ->
  (i < N)%N ->
  MatrixMode.innovation_cov self
    (MatrixMode.predict_P self (nth (0, 0) (xP :: filter_run self xP zs) i).2)
  \in unitmx.
Proof.
elim: N P0 xP zs i => [|N IH] P0 xP [|zi zs] i //= /andP[Su inv] eP [szs].
case: i => [|i] lti /=; first by rewrite eP.
by apply: (IH _ _ _ _ inv) => //=; rewrite eP.
Qed.

End Filter.

(** C1.  For every initial estimate [x0], initial covariance [P0] and
    sequence [z] of [N] observations for which every innovation covariance
    is invertible, [estimate(x0, P0, z)] in matrix mode returns exactly [N]
    estimates and [N] covariances, the initial pair not among them, and
    step [i] is obtained from the pair before it (the initial pair for
    [i = 0]) by: [x- = F x + u], [P- = F P F^T + Q], [y = z_i - H x-],
    [S = H P- H^T + R] (which is invertible), [K = P- H^T S^-1],
    [x = x- + K y], [P = (I - K H) P-]. *)
Theorem estimate_recursion (K : realFieldType) (n m : nat)
    (self : MatrixMode.KalmanFilter K n m)
    (x0 : 'cV[K]_n) (P0 : 'M[K]_n) (z : seq 'cV[K]_m) :
  (forall j, (j < size z)%N -> innovation_at self P0 j \in unitmx) ->
  exists (out : seq 'cV[K]_n) (Ps : seq 'M[K]_n),
    [/\ MatrixMode.estimate self x0 P0 z = ret (out, Ps),
        size out = size z, size Ps = size z
      & forall i, (i < size z)%N ->
          let F := MatrixMode.F self in
          let H := MatrixMode.H self in
          let x := nth 0 (x0 :: out) i in
          let P := nth 0 (P0 :: Ps) i in
          let x_pred := F *m x + MatrixMode.u self in
          let P_pred := F *m P *m F^T + MatrixMode.Q self in
          let y := nth 0 z i - H *m x_pred in
          let S := H *m P_pred *m H^T + MatrixMode.R self in
          let Kk := P_pred *m H^T *m invmx S in
          [/\ S \in unitmx,
              nth 0 out i = x_pred + Kk *m y
            & nth 0 Ps i = (1%:M - Kk *m H) *m P_pred]].
Proof.
move=> /innovations_invertibleP inv; set tr := filter_run self (x0, P0) z.
exists (unzip1 tr), (unzip2 tr); split.
- by rewrite estimate_run inv.
- by rewrite size_map size_filter_run.
- by rewrite size_map size_filter_run.
move=> i lti /=.
have nth1 : nth 0 (x0 :: unzip1 tr) i = (nth (0, 0) ((x0, P0) :: tr) i).1.
  by rewrite -[x0 :: _]/(unzip1 ((x0, P0) :: tr)) (nth_map (0, 0)) //=
             size_filter_run ltnW.
have nth2 : nth 0 (P0 :: unzip2 tr) i = (nth (0, 0) ((x0, P0) :: tr) i).2.
  by rewrite -[P0 :: _]/(unzip2 ((x0, P0) :: tr)) (nth_map (0, 0)) //=
             size_filter_run ltnW.
rewrite nth1 nth2; split.
- exact: (innovations_invertible_nth (xP := (x0, P0)) inv).
- by rewrite (nth_map (0, 0)) ?size_filter_run // nth_filter_run.
- by rewrite (nth_map (0, 0)) ?size_filter_run // nth_filter_run.
Qed.

(** With no process noise, a zero covariance stays zero, and every
    innovation covariance is the observation-noise covariance. *)
Lemma innovation_at_zero (K : realFieldType) (n m : nat)
    (self : MatrixMode.KalmanFilter K n m) (j : nat) :
  MatrixMode.Q self = 0 -> innovation_at self 0 j = MatrixMode.R self.
Proof.
move=> Q0; rewrite /innovation_at.
have -> : iter j (cov_step self) 0 = 0.
  elim: j => [|j IH] //=; rewrite IH /cov_step /update_P.
  by rewrite /MatrixMode.predict_P Q0 mulmx0 mul0mx addr0 mulmx0.
rewrite /MatrixMode.innovation_cov /MatrixMode.predict_P Q0.
by rewrite mulmx0 mul0mx addr0 mulmx0 mul0mx add0r.
Qed.

Lemma noisy_drift_invertible (j : nat) :
  innovation_at noisy_drift 0 j \in unitmx.
Proof. by rewrite innovation_at_zero //= unitmx1. Qed.

Lemma drift_singular (j : nat) : innovation_at drift 0 j \notin unitmx.
Proof. by rewrite innovation_at_zero //=; exact: zero_not_unitmx. Qed.

Lemma estimate_recursion_witness :
  exists (out : seq 'cV[rat]_4) (Ps : seq 'M[rat]_4),
    [/\ MatrixMode.estimate noisy_drift 0 0 [:: const_mx 1; const_mx 2]
        = ret (out, Ps),
        size out = 2%N & size Ps = 2%N].
Proof.
have [out [Ps [E so sP _]]] :=
  @estimate_recursion rat 4 2 noisy_drift 0 0 [:: const_mx 1; const_mx 2]
    (fun j _ => noisy_drift_invertible j).
by exists out, Ps.
Defined.

(** C9.  In matrix mode, if at some step [j] the innovation covariance
    [S = H P- H^T + R] is not invertible, [estimate] raises ([LinAlgError],
    from [inv]) and returns no sequence at all; if every [S] met is
    invertible, it returns the full sequences, one estimate and one
    covariance per observation. *)
Theorem estimate_singular_innovation (K : realFieldType) (n m : nat)
    (self : MatrixMode.KalmanFilter K n m)
    (x0 : 'cV[K]_n) (P0 : 'M[K]_n) (z : seq 'cV[K]_m) :
  ((exists2 j, (j < size z)%N & innovation_at self P0 j \notin unitmx) ->
   MatrixMode.estimate self x0 P0 z = raise LinAlgError)
  /\
  ((forall j, (j < size z)%N -> innovation_at self P0 j \in unitmx) ->
   exists (out : seq 'cV[K]_n) (Ps : seq 'M[K]_n),
     [/\ MatrixMode.estimate self x0 P0 z = ret (out, Ps),
         size out = size z & size Ps = size z]).
Proof.
rewrite estimate_run; split=> [[j ltj Sj]|/innovations_invertibleP ->].
  case: ifP => // /innovations_invertibleP all_inv.
  by rewrite all_inv in Sj.
set tr := filter_run _ _ _; exists (unzip1 tr), (unzip2 tr).
by rewrite !size_map size_filter_run.
Qed.

Lemma estimate_singular_innovation_witness :
  MatrixMode.estimate drift 0 0 [:: const_mx 1; const_mx 2] = raise LinAlgError
  /\
  exists (out : seq 'cV[rat]_4) (Ps : seq 'M[rat]_4),
    [/\ MatrixMode.estimate noisy_drift 0 0 [:: const_mx 1; const_mx 2]
        = ret (out, Ps),
        size out = 2%N & size Ps = 2%N].
Proof.
split.
  apply: (proj1 (@estimate_singular_innovation rat 4 2 drift 0 0
                   [:: const_mx 1; const_mx 2])).
  by exists 1%N => //; exact: drift_singular.
apply: (proj2 (@estimate_singular_innovation rat 4 2 noisy_drift 0 0
                 [:: const_mx 1; const_mx 2])).
by move=> j _; exact: noisy_drift_invertible.
Defined.

(** ** Covariances stay symmetric and positive semi-definite *)

Section QuadraticForms.

Variable K : realFieldType.

Lemma quadD (n : nat) (A B : 'M[K]_n) a : quad (A + B) a = quad A a + quad B a.
Proof. by rewrite /quad mulmxDr mulmxDl mxE. Qed.

(** [a^T (A P A^T) a] is the quadratic form of [P] at [A^T a]. *)
Lemma quad_sandwich (p q : nat) (A : 'M[K]_(p, q)) (P : 'M[K]_q) a :
  quad (A *m P *m A^T) a = quad P (A^T *m a).
Proof. by rewrite /quad trmx_mul trmxK !mulmxA. Qed.

Lemma symmetric_sandwich (p q : nat) (A : 'M[K]_(p, q)) (P : 'M[K]_q)
    (B : 'M[K]_p) :
  symmetric P -> symmetric B -> symmetric (A *m P *m A^T + B).
Proof.
rewrite /symmetric => sP sB.
by rewrite linearD /= sB !trmx_mul trmxK sP mulmxA.
Qed.

Lemma psd_sandwich (p q : nat) (A : 'M[K]_(p, q)) (P : 'M[K]_q)
    (B : 'M[K]_p) :
  psd P -> psd B -> psd (A *m P *m A^T + B).
Proof.
by move=> pP pB a; rewrite quadD quad_sandwich addr_ge0.
Qed.

(** The algebra of the Schur complement. *)
Lemma schur_algebra (n m : nat) (P : 'M[K]_n) (H : 'M[K]_(m, n))
    (R : 'M[K]_m) (a : 'cV[K]_n) (b c : 'cV[K]_m) :
  a^T *m P *m H^T = c^T -> H *m P *m a = c ->
  H *m P *m H^T *m b = - c - R *m b ->
  (a + H^T *m b)^T *m P *m (a + H^T *m b) + b^T *m R *m b
  = a^T *m P *m a + c^T *m b.
Proof.
move=> cT cE HPHb.
rewrite [(_ + _)^T]linearD /= trmx_mul trmxK.
rewrite !mulmxDl !mulmxDr.
rewrite [a^T *m P *m (H^T *m b)]mulmxA cT.
rewrite -[b^T *m H *m P *m a]mulmxA -[b^T *m H *m (P *m a)]mulmxA.
rewrite [H *m (P *m a)]mulmxA cE.
rewrite -[b^T *m H *m P *m (H^T *m b)]mulmxA -[b^T *m H *m (P *m _)]mulmxA.
rewrite [P *m (H^T *m b)]mulmxA [H *m (P *m H^T *m b)]mulmxA.
rewrite [H *m (P *m H^T)]mulmxA HPHb.
rewrite mulmxBr mulmxN -[b^T *m R *m b]mulmxA.
by rewrite [b^T *m c + _]addrA subrr sub0r subrK.
Qed.

Lemma sym_psd0 (n : nat) : sym_psd (0 : 'M[K]_n).
Proof.
split; first exact: trmx0.
by move=> a; rewrite /quad mulmx0 mul0mx mxE.
Qed.

Lemma sym_psd1 (n : nat) : sym_psd (1%:M : 'M[K]_n).
Proof.
split; first exact: tr_scalar_mx.
move=> a; rewrite /quad mulmx1 mxE sumr_ge0 // => i _.
by rewrite mxE -expr2 sqr_ge0.
Qed.

End QuadraticForms.

Section CovarianceStep.

Variable K : realFieldType.
Variables n m : nat.
Variable self : MatrixMode.KalmanFilter K n m.

Let F := MatrixMode.F self.
Let Q := MatrixMode.Q self.
Let H := MatrixMode.H self.
Let R := MatrixMode.R self.

Hypothesis sym_psd_Q : sym_psd Q.
Hypothesis sym_psd_R : sym_psd R.

Lemma sym_psd_predict P : sym_psd P -> sym_psd (MatrixMode.predict_P self P).
Proof.
case: sym_psd_Q => sQ pQ [sP pP]; split.
  exact: symmetric_sandwich.
exact: psd_sandwich.
Qed.

Lemma symmetric_innovation new_P :
  symmetric new_P -> symmetric (MatrixMode.innovation_cov self new_P).
Proof. by case: sym_psd_R => sR _ sP; exact: symmetric_sandwich. Qed.

(** The update in the form [P- - P- H^T S^-1 H P-]. *)
Lemma update_PE new_P :
  update_P self new_P
  = new_P - new_P *m H^T *m invmx (MatrixMode.innovation_cov self new_P)
            *m H *m new_P.
Proof. by rewrite /update_P /kalman_gain mulmxBl mul1mx. Qed.

Lemma symmetric_update new_P :
  symmetric new_P -> symmetric (update_P self new_P).
Proof.
move=> sP; have sS := symmetric_innovation sP.
rewrite /symmetric update_PE linearB /= !trmx_mul trmx_inv sS trmxK sP.
by rewrite !mulmxA.
Qed.

(** The updated covariance is a Schur complement: its quadratic form at
    [a] is that of [P-] at [a + H^T b] plus that of [R] at [b], for
    [b = - S^-1 H P- a]. *)
Lemma quad_update new_P a :
  symmetric new_P -> MatrixMode.innovation_cov self new_P \in unitmx ->
  let b := - (invmx (MatrixMode.innovation_cov self new_P) *m (H *m new_P *m a)) in
  quad (update_P self new_P) a = quad new_P (a + H^T *m b) + quad R b.
Proof.
move=> sP Su b.
have cT : a^T *m new_P *m H^T = (H *m new_P *m a)^T.
  by rewrite !trmx_mul sP mulmxA.
have HPHb : H *m new_P *m H^T *m b = - (H *m new_P *m a) - R *m b.
  have <- : MatrixMode.innovation_cov self new_P *m b = - (H *m new_P *m a).
    by rewrite /b mulmxN mulKVmx.
  by rewrite /MatrixMode.innovation_cov mulmxDl addrK.
have lhs : a^T *m update_P self new_P *m a
           = a^T *m new_P *m a + (H *m new_P *m a)^T *m b.
  rewrite update_PE mulmxBr mulmxBl /b mulmxN; congr (_ - _).
  by rewrite -cT !mulmxA.
by rewrite /quad lhs -(schur_algebra cT (erefl _) HPHb) mxE.
Qed.

Lemma sym_psd_update new_P :
  MatrixMode.innovation_cov self new_P \in unitmx ->
  sym_psd new_P -> sym_psd (update_P self new_P).
Proof.
move=> Su [sP pP]; split; first exact: symmetric_update.
case: sym_psd_R => _ pR a.
by rewrite quad_update // addr_ge0.
Qed.

Lemma sym_psd_cov_step P :
  innovation_at self P 0 \in unitmx -> sym_psd P -> sym_psd (cov_step self P).
Proof. by move=> Su sP; apply: sym_psd_update => //; exact: sym_psd_predict. Qed.

Lemma sym_psd_filter_run xP zs :
  innovations_invertible self xP.2 (size zs) -> sym_psd xP.2 ->
  forall yP, yP \in filter_run self xP zs -> sym_psd yP.2.
Proof.
elim: zs xP => [|zi zs IH] xP //= /andP[Su inv] sP yP.
have sP' : sym_psd (cov_step self xP.2) by exact: sym_psd_cov_step.
rewrite inE => /orP[/eqP -> //|].
exact: IH.
Qed.

End CovarianceStep.

(** C5.  For symmetric positive semi-definite [P0], [Q] and [R], and every
    observation sequence [z] for which each innovation covariance is
    invertible, [estimate(x0, P0, z)] returns, and every covariance matrix
    in the returned sequence is symmetric and positive semi-definite. *)
Theorem estimate_covariances_psd (K : realFieldType) (n m : nat)
    (self : MatrixMode.KalmanFilter K n m)
    (x0 : 'cV[K]_n) (P0 : 'M[K]_n) (z : seq 'cV[K]_m) :
  sym_psd P0 -> sym_psd (MatrixMode.Q self) -> sym_psd (MatrixMode.R self) ->
  (forall j, (j < size z)%N -> innovation_at self P0 j \in unitmx) ->
  exists (out : seq 'cV[K]_n) (Ps : seq 'M[K]_n),
    [/\ MatrixMode.estimate self x0 P0 z = ret (out, Ps), size Ps = size z
      & forall P, P \in Ps -> sym_psd P].
Proof.
move=> sP0 sQ sR /innovations_invertibleP inv.
set tr := filter_run self (x0, P0) z.
exists (unzip1 tr), (unzip2 tr); split.
- by rewrite estimate_run inv.
- by rewrite size_map size_filter_run.
move=> P /mapP[yP yP_tr ->].
exact: (sym_psd_filter_run sQ sR (xP := (x0, P0)) inv sP0 yP_tr).
Qed.

Lemma noisy_drift_first_innovation :
  innovation_at noisy_drift 1%:M 0 = (1 + 1)%:M.
Proof.
rewrite /innovation_at /MatrixMode.innovation_cov /MatrixMode.predict_P /=.
rewrite !mul1mx trmx1 addr0 mulmx1 tr_row_mx trmx1 trmx0 mul_row_col.
by rewrite mul1mx mulmx0 addr0 raddfD.
Qed.

Lemma estimate_covariances_psd_witness :
  exists (out : seq 'cV[rat]_4) (Ps : seq 'M[rat]_4),
    [/\ MatrixMode.estimate noisy_drift 0 1%:M [:: const_mx 1]
        = ret (out, Ps), size Ps = 1%N
      & forall P, P \in Ps -> sym_psd P].
Proof.
apply: (@estimate_covariances_psd rat 4 2 noisy_drift 0 1%:M [:: const_mx 1]).
- exact: sym_psd1.
- exact: sym_psd0.
- exact: sym_psd1.
case=> // _; rewrite noisy_drift_first_innovation.
by rewrite unitmxE det_scalar unitrX.
Defined.

(** ** Simulation: [evolve] *)

Section Draws.

Variable K : realFieldType.
Variable G : Type.
Variable draw_mvn : G -> forall d : nat, 'M[K]_d -> 'cV[K]_d * G.

Lemma multivariate_normal_same (d : nat) (cov : 'M[K]_d) g :
  multivariate_normal draw_mvn (0 : 'cV[K]_d) cov g = ret (draw_mvn g cov).
Proof.
rewrite /multivariate_normal; case: eqP => // e.
by case: (draw_mvn g cov) => w g'; rewrite castmx_id add0r.
Qed.

Lemma multivariate_normal_diff (k d : nat) (mean : 'cV[K]_k) (cov : 'M[K]_d) g :
  k != d -> multivariate_normal draw_mvn mean cov g = raise ValueError.
Proof. by rewrite /multivariate_normal; case: eqP. Qed.

Section Matrix.

Variables n m : nat.
Variable self : MatrixMode.KalmanFilter K n m.

(** The first pass through the loop body raises unless the model has
    the dimensions of the hardcoded means. *)
Lemma evolve_body_raise t st :
  (n != 4) || (m != 2) ->
  MatrixMode.evolve_body self draw_mvn t st = raise ValueError.
Proof.
case: st => [[[x0 x] z] g] dims; rewrite /MatrixMode.evolve_body.
have [n4|n4] := eqVneq 4%N n; last by rewrite multivariate_normal_diff.
have m2 : 2%N != m by move: dims; rewrite -n4 eqxx /= eq_sym.
move: (MatrixMode.Q self) => Qs; rewrite /multivariate_normal.
case: eqP => // e; case: (draw_mvn g Qs) => w g1 /=.
by case: eqP m2 => // ->; rewrite eqxx.
Qed.

Lemma evolve_raise x0 N g :
  (n != 4) || (m != 2) -> (0 < N)%N ->
  MatrixMode.evolve self draw_mvn x0 N g = raise ValueError.
Proof.
case: N => // N dims _.
by rewrite /MatrixMode.evolve /for_range for_loopS evolve_body_raise.
Qed.

Lemma evolve_zero x0 g :
  MatrixMode.evolve self draw_mvn x0 0 g = ret ([:: x0], [::], g).
Proof. by []. Qed.

End Matrix.

Section Projectile.

Variable self : MatrixMode.KalmanFilter K 4 2.

Lemma evolve_body_step t x0 x z g :
  MatrixMode.evolve_body self draw_mvn t (x0, x, z, g)
  = let s := simulate self draw_mvn x0 1 g in
    let x1 := head 0 s.1.1 in
    ret (x1, rcons x x1, rcons z (head 0 s.1.2), s.2).
Proof.
by rewrite /MatrixMode.evolve_body multivariate_normal_same /=
           multivariate_normal_same.
Qed.

Lemma evolve_loop N i x0 x z g :
  for_loop (MatrixMode.evolve_body self draw_mvn) i N (x0, x, z, g)
  = let s := simulate self draw_mvn x0 N g in
    ret (last x0 s.1.1, x ++ s.1.1, z ++ s.1.2, s.2).
Proof.
elim: N i x0 x z g => [|N IH] i x0 x z g; first by rewrite /= !cats0.
by rewrite for_loopS evolve_body_step /= IH /= !cat_rcons.
Qed.

Lemma evolve_simulate x0 N g :
  MatrixMode.evolve self draw_mvn x0 N g
  = let s := simulate self draw_mvn x0 N g in ret (x0 :: s.1.1, s.1.2, s.2).
Proof. by rewrite /MatrixMode.evolve /for_range evolve_loop. Qed.

Lemma size_simulate x0 N g :
  size (simulate self draw_mvn x0 N g).1.1 = N
  /\ size (simulate self draw_mvn x0 N g).1.2 = N.
Proof.
elim: N x0 g => [|N IH] x0 g //=.
by split; congr (_.+1); [exact: (proj1 (IH _ _)) | exact: (proj2 (IH _ _))].
Qed.

(** Element [t+1] of the states and element [t] of the observations are
    both computed from element [t] of the states. *)
Lemma nth_simulate x0 N g t :
  (t < N)%N ->
  let s := simulate self draw_mvn x0 N g in
  exists gw gv : G,
    nth 0 (x0 :: s.1.1) t.+1
    = MatrixMode.F self *m nth 0 (x0 :: s.1.1) t + MatrixMode.u self
      + (draw_mvn gw (MatrixMode.Q self)).1
    /\ nth 0 s.1.2 t
       = MatrixMode.H self *m nth 0 (x0 :: s.1.1) t
         + (draw_mvn gv (MatrixMode.R self)).1.
Proof.
elim: N x0 g t => [|N IH] x0 g [|t] //= ltt.
  by exists g, (draw_mvn g (MatrixMode.Q self)).2.
exact: IH.
Qed.

(** Without noise the simulation is the deterministic trajectory. *)
Lemma simulate_noise_free x0 N g :
  MatrixMode.Q self = 0 -> MatrixMode.R self = 0 ->
  (forall g' d, (draw_mvn g' (0 : 'M[K]_d)).1 = 0) ->
  let s := simulate self draw_mvn x0 N g in
  s.1.1 = traject (step self) (step self x0) N
  /\ s.1.2 = [seq MatrixMode.H self *m x | x <- traject (step self) x0 N].
Proof.
move=> Q0 R0 draw0; elim: N x0 g => [|N IH] x0 g //=.
rewrite Q0 R0 !draw0 !addr0.
rewrite -/(step self x0).
set g2 := (X in simulate _ _ _ _ X).
by have /= [-> ->] := IH (step self x0) g2.
Qed.

End Projectile.
End Draws.

(** X10.  In matrix mode with the dimensions of the hardcoded means, [evolve]
    returns [N+1] states starting at [x0] and [N] observations, state
    [t+1] being [F x_t + u + w] and observation [t] being [H x_t + v] for
    draws [w], [v] with covariances [Q], [R]: the observation of a step is
    taken from the state before the transition. *)
Lemma evolve_matrix_spec (K : realFieldType)
    (self : MatrixMode.KalmanFilter K 4 2) (G : Type)
    (draw_mvn : G -> forall d : nat, 'M[K]_d -> 'cV[K]_d * G)
    (x0 : 'cV[K]_4) (N : nat) (g : G) :
  exists (xs : seq 'cV[K]_4) (zs : seq 'cV[K]_2) (g' : G),
    [/\ MatrixMode.evolve self draw_mvn x0 N g = ret (xs, zs, g'),
        size xs = N.+1, size zs = N, nth 0 xs 0 = x0
      & forall t, (t < N)%N ->
          exists gw gv : G,
            nth 0 xs t.+1
            = MatrixMode.F self *m nth 0 xs t + MatrixMode.u self
              + (draw_mvn gw _ (MatrixMode.Q self)).1
            /\ nth 0 zs t
               = MatrixMode.H self *m nth 0 xs t
                 + (draw_mvn gv _ (MatrixMode.R self)).1].
Proof.
set s := simulate self draw_mvn x0 N g.
exists (x0 :: s.1.1), s.1.2, s.2; split=> //.
- by rewrite evolve_simulate.
- by rewrite /= (proj1 (size_simulate _ _ _ _ _)).
- by rewrite (proj2 (size_simulate _ _ _ _ _)).
- by move=> t ltt; exact: nth_simulate.
Qed.

(** C10.  In matrix mode [evolve] draws the process noise with a mean of
    length 4 and the observation noise with a mean of length 2 whatever
    the model: for a model with [n <> 4] or [m <> 2] and a horizon
    [N >= 1] the call raises ([ValueError]) instead of returning
    sequences, while for [n = 4] and [m = 2] it always returns; [predict],
    [estimate] and [rewind] have no such restriction: in any dimensions
    [predict] returns, and [estimate] and [rewind] raise nothing but the
    [LinAlgError] of a singular matrix. *)
Theorem evolve_hardcoded_dimensions (K : realFieldType) (n m : nat)
    (self : MatrixMode.KalmanFilter K n m) (G : Type)
    (draw_mvn : G -> forall d : nat, 'M[K]_d -> 'cV[K]_d * G)
    (x0 : 'cV[K]_n) (P0 : 'M[K]_n) (z : seq 'cV[K]_m) (N k : nat) (g : G) :
  (0 < N)%N -> (0 < k)%N ->
  [/\ (n != 4%N) || (m != 2%N) ->
      MatrixMode.evolve self draw_mvn x0 N g = raise ValueError,
      (n == 4%N) && (m == 2%N) ->
      ~~ raises (MatrixMode.evolve self draw_mvn x0 N g),
      ~~ raises (MatrixMode.predict self x0 k),
      MatrixMode.estimate self x0 P0 z <> raise ValueError
    & MatrixMode.rewind self x0 k <> raise ValueError].
Proof.
move=> N_gt0 k_gt0; split.
- by move=> dims; exact: evolve_raise.
- case/andP=> /eqP n4 /eqP m2; move: self x0 P0 z; rewrite {}n4 {}m2.
  by move=> self' x0' _ _; rewrite evolve_simulate.
- by rewrite predict_traject.
- by rewrite estimate_run; case: ifP.
- have [Fu|Fs] := boolP (MatrixMode.F self \in unitmx).
    by rewrite rewind_traject.
  case: k k_gt0 => [|[|k]] // _; first by rewrite rewind_one.
  by rewrite rewind_singular.
Qed.

Lemma evolve_hardcoded_dimensions_witness :
  MatrixMode.evolve (as_matrix counter1) zero_mvn 0 1 tt = raise ValueError
  /\ ~~ raises (MatrixMode.evolve drift zero_mvn 0 1 tt).
Proof.
have [bad _ _ _ _] :=
  @evolve_hardcoded_dimensions rat 1 1 (as_matrix counter1) unit zero_mvn
    0 0 [::] 1 1 tt isT isT.
have [_ good _ _ _] :=
  @evolve_hardcoded_dimensions rat 4 2 drift unit zero_mvn
    0 0 [::] 1 1 tt isT isT.
by split; [exact: bad | exact: good].
Defined.

(** ** The scalar branch of [evolve] *)

Section ScalarEvolve.

Variable K : realFieldType.
Variable self : ScalarMode.KalmanFilter K.
Variable G : Type.
Variable gauss : G -> K * G.

Let F := ScalarMode.F self.
Let Q := ScalarMode.Q self.
Let H := ScalarMode.H self.
Let R := ScalarMode.R self.
Let u := ScalarMode.u self.

Lemma normal_scale (scale : K) g :
  0 <= scale ->
  normal gauss 0 scale g = ret (scale * (gauss g).1, (gauss g).2).
Proof.
by rewrite /normal leNgt => /negbTE ->; case: (gauss g) => e g'; rewrite add0r.
Qed.

Lemma after_draws2 k g :
  (gauss (gauss (after_draws gauss k g)).2).2
  = after_draws gauss k (gauss (gauss g).2).2.
Proof. by rewrite /after_draws; elim: k => //= k <-. Qed.

(** Every pass appends a state and an observation computed from the
    argument [x0], which the loop never assigns, and draws twice. *)
Lemma evolve1_loop x0 N i x z g :
  0 <= Q -> 0 <= R ->
  for_loop (ScalarMode.evolve_body self gauss x0) i N (x, z, g)
  = ret (x ++ mkseq (fun t =>
                 F * x0 + u + Q * (gauss (after_draws gauss t.*2 g)).1) N,
         z ++ mkseq (fun t =>
                 H * x0 + R * (gauss (after_draws gauss t.*2.+1 g)).1) N,
         after_draws gauss N.*2 g).
Proof.
move=> Q0 R0; elim: N i x z g => [|N IH] i x z g; first by rewrite /= !cats0.
rewrite for_loopS /ScalarMode.evolve_body normal_scale //= normal_scale //=.
rewrite IH /mkseq /= -[1%N]/(1 + 0)%N iotaDl -!map_comp -!cat_rcons.
congr (ret (_ ++ _, _ ++ _, _)).
- by apply: eq_map => t /=; rewrite -after_draws2.
- by apply: eq_map => t /=; rewrite -after_draws2.
- by rewrite -after_draws2.
Qed.

(** X11.  In scalar mode with non-negative [Q] and [R], [evolve] returns
    [N+1] states and [N] observations and leaves the generator after
    [2 N] draws.  State [t+1] is [F x0 + u + Q w_t] and observation [t] is
    [H x0 + R v_t], where [w_t] and [v_t] are the draws number [2 t] and
    [2 t + 1] of the generator: every state is computed from the argument
    [x0], and [Q], [R] multiply the standard normal draws. *)
Lemma evolve1_restarts x0 N g :
  0 <= Q -> 0 <= R ->
  exists xs zs : seq K,
    [/\ ScalarMode.evolve self gauss x0 N g
        = ret (xs, zs, after_draws gauss N.*2 g),
        size xs = N.+1, size zs = N, nth 0 xs 0 = x0
      & forall t, (t < N)%N ->
          nth 0 xs t.+1
          = F * x0 + u + Q * (gauss (after_draws gauss t.*2 g)).1
          /\ nth 0 zs t
             = H * x0 + R * (gauss (after_draws gauss t.*2.+1 g)).1].
Proof.
move=> Q0 R0.
set ws := mkseq (fun t => F * x0 + u + Q * (gauss (after_draws gauss t.*2 g)).1) N.
set vs := mkseq (fun t => H * x0 + R * (gauss (after_draws gauss t.*2.+1 g)).1) N.
exists (x0 :: ws), vs; split=> //.
- by rewrite /ScalarMode.evolve /for_range evolve1_loop.
- by rewrite /= size_mkseq.
- by rewrite size_mkseq.
by move=> t ltt; rewrite /= !nth_mkseq.
Qed.

End ScalarEvolve.

Lemma evolve1_counter1 (G : Type) (gauss : G -> rat * G) (g : G) :
  exists g' : G,
    ScalarMode.evolve counter1 gauss 0 2 g = ret ([:: 0; 1; 1], [:: 0; 0], g').
Proof.
rewrite /ScalarMode.evolve /for_range !for_loopS /ScalarMode.evolve_body.
do 4! rewrite normal_scale //=.
rewrite !(mul0r, mulr0, addr0, add0r).
by eexists.
Qed.

(** C3, the code at a failing input.  The claim asks that state [t] of
    [evolve(x0, N)] be [F x_{t-1} + u + w_t].  In scalar mode with
    [F = u = H = 1], no noise, [x0 = 0] and [N = 2], [evolve] returns the
    states [0, 1, 1]: the last one is [F x0 + u] again, not
    [F x_1 + u = 2], because the scalar branch never assigns [x0 = x1] as
    the matrix branch does. *)
Theorem evolve_scalar_no_feedback (G : Type) (gauss : G -> rat * G) (g : G) :
  exists (xs zs : seq rat) (g' : G),
    [/\ ScalarMode.evolve counter1 gauss 0 2 g = ret (xs, zs, g'),
        xs = [:: 0; 1; 1]
      & forall w : rat,
          nth 0 xs 2 != ScalarMode.F counter1 * nth 0 xs 1
                        + ScalarMode.u counter1 + ScalarMode.Q counter1 * w].
Proof.
have [g' E] := evolve1_counter1 gauss g.
exists [:: 0; 1; 1], [:: 0; 0], g'; split=> // w.
by rewrite /= mul0r addr0 mul1r.
Qed.

(** C2, the code at a failing input.  The claim asks that the scalar path
    and the matrix path on 1x1 matrices give identical results.  On the
    parameters [F = u = H = 1], no noise, [x0 = 0], [N = 2], the scalar
    path of [evolve] returns the states [0, 1, 1], while the matrix path
    raises [ValueError] (its means have lengths 4 and 2), and the matrix
    recursion itself gives [2] as the last state. *)
Theorem evolve_scalar_matrix_differ (G : Type) (gauss : G -> rat * G)
    (draw_mvn : G -> forall d : nat, 'M[rat]_d -> 'cV[rat]_d * G) (g : G) :
  [/\ exists g' : G,
        ScalarMode.evolve counter1 gauss 0 2 g
        = ret ([:: 0; 1; 1], [:: 0; 0], g'),
      MatrixMode.evolve (as_matrix counter1) draw_mvn 0 2 g = raise ValueError
    & step (as_matrix counter1) (step (as_matrix counter1) 0) = (1 + 1)%:M].
Proof.
split; first exact: evolve1_counter1.
  exact: evolve_raise.
rewrite /step /= mulmx0 add0r mul1mx.
by rewrite raddfD.
Qed.

(** ** Filtering noise-free simulated observations *)

Section Observed.

Variable K : realFieldType.
Variables n m : nat.
Variable self : MatrixMode.KalmanFilter K n m.

Let H := MatrixMode.H self.

Hypothesis R0 : MatrixMode.R self = 0.

(** Without observation noise the updated estimate reproduces the
    observation it was updated with. *)
Lemma observed_update new_x new_P zi :
  MatrixMode.innovation_cov self new_P \in unitmx ->
  H *m update_x self new_x new_P zi = zi.
Proof.
move=> Su; rewrite /update_x /kalman_gain mulmxDr !mulmxA.
have -> : H *m new_P *m H^T = MatrixMode.innovation_cov self new_P.
  by rewrite /MatrixMode.innovation_cov R0 addr0.
by rewrite mulmxV // mul1mx addrC subrK.
Qed.

(** Without observation noise the updated covariance carries no
    uncertainty about the observed components. *)
Lemma observed_update_P new_P :
  MatrixMode.innovation_cov self new_P \in unitmx ->
  H *m update_P self new_P = 0.
Proof.
move=> Su; rewrite /update_P /kalman_gain mulmxBl mul1mx mulmxBr !mulmxA.
have -> : H *m new_P *m H^T = MatrixMode.innovation_cov self new_P.
  by rewrite /MatrixMode.innovation_cov R0 addr0.
by rewrite mulmxV // mul1mx subrr.
Qed.

Lemma observed_filter_run xP zs i :
  innovations_invertible self xP.2 (size zs) -> (i < size zs)%N ->
  H *m nth 0 (unzip1 (filter_run self xP zs)) i = nth 0 zs i.
Proof.
elim: zs xP i => [|zi zs IH] xP [|i] //= /andP[Su inv] lti.
  exact: observed_update.
exact: IH.
Qed.

End Observed.

Lemma drift_first_innovation : innovation_at drift 1%:M 0 = 1%:M.
Proof.
rewrite /innovation_at /MatrixMode.innovation_cov /MatrixMode.predict_P /=.
rewrite !mul1mx trmx1 !addr0 mulmx1 tr_row_mx trmx1 trmx0 mul_row_col.
by rewrite mul1mx mulmx0 addr0.
Qed.

Lemma drift_first_estimate :
  update_x drift (MatrixMode.predict_x drift 0) (MatrixMode.predict_P drift 1%:M) 0
  = col_mx 0 (const_mx 1).
Proof.
rewrite /update_x /kalman_gain -/(innovation_at drift 1%:M 0).
rewrite drift_first_innovation invmx1 mulmx1.
rewrite /MatrixMode.predict_P /MatrixMode.predict_x /=.
rewrite !mul1mx trmx1 addr0 mul1mx !add0r tr_row_mx trmx1 trmx0.
rewrite mul_row_col mul1mx mul0mx addr0 mulmxN mul_col_mx mul1mx mul0mx.
by rewrite opp_col_mx oppr0 add_col_mx subrr addr0.
Qed.

Lemma const1_neq0 (d : nat) : (const_mx 1 : 'cV[rat]_d.+1) <> 0.
Proof. by move/matrixP/(_ ord0 ord0); rewrite !mxE. Qed.

(** C4, as the specification states it, fails: an observation is taken
    from the state before the transition, while the filter compares it
    with its prediction after the transition.  For the drifting model
    with [x0 = 0], [P0 = I] and one step, the innovation covariance is
    invertible, the states are [0] and [u], and the returned estimate
    [(0, 0, 1, 1)] is neither of them. *)
Lemma estimate_misses_simulated_state :
  [/\ MatrixMode.evolve drift zero_mvn 0 1 tt
      = ret ([:: 0; MatrixMode.u drift], [:: 0], tt),
      innovation_at drift 1%:M 0 \in unitmx,
      exists Ps : seq 'M[rat]_4,
        MatrixMode.estimate drift 0 1%:M [:: 0]
        = ret ([:: col_mx 0 (const_mx 1)], Ps),
      col_mx 0 (const_mx 1) <> MatrixMode.u drift
    & col_mx 0 (const_mx 1) <> (0 : 'cV[rat]_(2 + 2))].
Proof.
split.
- by rewrite evolve_simulate /= !mulmx0 !addr0 add0r.
- by rewrite drift_first_innovation unitmx1.
- exists [:: cov_step drift 1%:M].
  rewrite estimate_run /= drift_first_innovation unitmx1 /=.
  by rewrite /filter_step /= drift_first_estimate.
- by move=> /= h; have [/esym/const1_neq0] := eq_col_mx h.
- rewrite -[0 in RHS]col_mx0 => h.
  by have [_ /const1_neq0] := eq_col_mx h.
Qed.

(** *** Why only two steps *)

Section NoiseFreeCollapse.

Variable K : realFieldType.
Variables n m : nat.
Variable self : MatrixMode.KalmanFilter K n m.

Let F := MatrixMode.F self.
Let H := MatrixMode.H self.

Hypothesis Q0 : MatrixMode.Q self = 0.
Hypothesis R0 : MatrixMode.R self = 0.
Hypothesis le_nm : (n <= m + m)%N.

(** In exact arithmetic, without any noise and with at most twice as many
    state components as observed ones, two updates with invertible
    innovation covariances leave the covariance exactly zero: the first
    confines it to the kernel of [H], the second removes what is left. *)
Lemma noise_free_collapse P :
  innovation_at self P 0 \in unitmx -> innovation_at self P 1 \in unitmx ->
  cov_step self (cov_step self P) = 0.
Proof.
move=> S0 S1; set P1 := cov_step self P.
have HP1 : H *m P1 = 0 by exact: (observed_update_P R0 S0).
have rH : \rank H = m.
  apply/eqP; rewrite eqn_leq rank_leq_row /= -{1}(mxrank_unit S0).
  rewrite /innovation_at /MatrixMode.innovation_cov R0 addr0 -mulmxA.
  exact: mxrankM_maxl.
have rP1 : (\rank P1 <= m)%N.
  have /mxrankS : (H <= kermx P1)%MS by apply/sub_kermxP.
  rewrite rH mxrank_ker leq_subRL ?rank_leq_row // => le_n.
  by rewrite -(leq_add2r m) (leq_trans le_n).
set A := MatrixMode.predict_P self P1.
have rA : (\rank A <= m)%N.
  rewrite /A /MatrixMode.predict_P Q0 addr0.
  exact: leq_trans (mxrankM_maxl _ _) (leq_trans (mxrankM_maxr _ _) rP1).
have SE : MatrixMode.innovation_cov self A = H *m A *m H^T.
  by rewrite /MatrixMode.innovation_cov R0 addr0.
have SA : H *m A *m H^T \in unitmx by rewrite -SE.
have rB : (m <= \rank (H *m A))%N.
  by rewrite -{1}(mxrank_unit SA); exact: mxrankM_maxl.
have /submxP[C AC] : (A <= H *m A)%MS.
  by rewrite -(geq_leqif (mxrank_leqif_sup (submxMl H A))) (leq_trans rA).
rewrite -/P1 /cov_step -/A update_PE SE.
have -> : A *m H^T *m invmx (H *m A *m H^T) *m H *m A = A.
  set S := H *m A *m H^T in SA *.
  have -> : A *m H^T = C *m S by rewrite {1}AC /S !mulmxA.
  by rewrite -[C *m S *m invmx S]mulmxA mulmxV // mulmx1 -mulmxA -AC.
by rewrite subrr.
Qed.

(** Hence the third innovation covariance is zero, and three innovation
    covariances in a row are never all invertible. *)
Lemma noise_free_three_steps P :
  (0 < m)%N -> ~~ innovations_invertible self P 3.
Proof.
move=> m_gt0; apply/negP => /innovations_invertibleP inv.
have S0 := inv 0%N isT; have S1 := inv 1%N isT; have := inv 2%N isT.
rewrite /innovation_at /= -/(cov_step self _) noise_free_collapse //.
rewrite /MatrixMode.innovation_cov /MatrixMode.predict_P Q0 R0.
rewrite mulmx0 mul0mx !addr0 mulmx0 mul0mx.
by case: m m_gt0 => // m' _; rewrite unitmxE det0 unitr0.
Qed.

End NoiseFreeCollapse.

(** *** Two steps of the ballistic model *)

Lemma ballistic_predict (A B C D : 'M[rat]_2) :
  MatrixMode.predict_P ballistic (block_mx A B C D)
  = block_mx (A + C + (B + D)) (B + D) (C + D) D.
Proof.
rewrite /MatrixMode.predict_P /= addr0 tr_block_mx !trmx1 trmx0 !mulmx_block.
by rewrite !(mul1mx, mul0mx, mulmx1, mulmx0, add0r, addr0).
Qed.

Lemma ballistic_innovation (A B C D : 'M[rat]_2) :
  MatrixMode.innovation_cov ballistic (block_mx A B C D) = A.
Proof.
rewrite /MatrixMode.innovation_cov /= addr0 tr_row_mx trmx1 trmx0.
by rewrite mul_row_block mul_row_col !(mul1mx, mul0mx, mulmx1, mulmx0, addr0).
Qed.

Lemma ballistic_update (A B C D : 'M[rat]_2) :
  A \in unitmx ->
  update_P ballistic (block_mx A B C D)
  = block_mx 0 0 0 (D - C *m invmx A *m B).
Proof.
move=> Au; rewrite update_PE ballistic_innovation /= tr_row_mx trmx1 trmx0.
rewrite mul_block_col !(mulmx1, mulmx0, addr0) mul_col_mx mulmxV //.
rewrite mul_col_row !(mulmx1, mulmx0) mulmx_block !(mul1mx, mul0mx, addr0).
by rewrite mulmxKV // opp_block_mx add_block_mx !subrr.
Qed.

Lemma two_unit : ((1 + 1)%:M : 'M[rat]_2) \in unitmx.
Proof. by rewrite unitmxE det_scalar unitrX. Qed.

Lemma ballistic_first_innovation :
  innovation_at ballistic 1%:M 0 = (1 + 1)%:M.
Proof.
rewrite /innovation_at /= (scalar_mx_block 2 2) ballistic_predict.
by rewrite ballistic_innovation !addr0 add0r raddfD.
Qed.

Lemma ballistic_second_innovation :
  innovation_at ballistic 1%:M 1 = (1 - (1 + 1)^-1)%:M.
Proof.
rewrite /innovation_at /= /cov_step (scalar_mx_block 2 2) ballistic_predict.
rewrite !addr0 !add0r -raddfD ballistic_update ?two_unit //.
rewrite ballistic_predict ballistic_innovation !add0r.
by rewrite invmx_scalar mul1mx mulmx1 -raddfB.
Qed.

Lemma ballistic_invertible j :
  (j < 2)%N -> innovation_at ballistic 1%:M j \in unitmx.
Proof.
case: j => [|[|j]] // _.
  by rewrite ballistic_first_innovation two_unit.
by rewrite ballistic_second_innovation unitmxE det_scalar unitrX.
Qed.

(** C4, amended.  If [Q] and [R] are zero (so that every draw is zero),
    then for [N <= 2] and every [x0], [P0] for which the [N] innovation
    covariances are invertible, [estimate] applied to the [N] observations
    that [evolve] produces from [x0] returns [N] estimates, and the i-th
    estimate reproduces the i-th observation, that is the observed
    components of the i-th simulated state counted from [x0]:
    [H est_i = z_i = H x_i].  (From the third step on the innovation
    covariance of the noise-free filter is singular in exact arithmetic,
    see [noise_free_three_steps], so nothing is stated for [N >= 3].) *)
Theorem noise_free_estimate (K : realFieldType)
    (self : MatrixMode.KalmanFilter K 4 2) (G : Type)
    (draw_mvn : G -> forall d : nat, 'M[K]_d -> 'cV[K]_d * G)
    (x0 : 'cV[K]_4) (P0 : 'M[K]_4) (N : nat) (g : G) :
  MatrixMode.Q self = 0 -> MatrixMode.R self = 0 ->
  (forall g' d, (draw_mvn g' d 0).1 = 0) ->
  (N <= 2)%N ->
  (forall j, (j < N)%N -> innovation_at self P0 j \in unitmx) ->
  exists (xs : seq 'cV[K]_4) (zs : seq 'cV[K]_2) (g' : G)
         (out : seq 'cV[K]_4) (Ps : seq 'M[K]_4),
    [/\ MatrixMode.evolve self draw_mvn x0 N g = ret (xs, zs, g'),
        MatrixMode.estimate self x0 P0 zs = ret (out, Ps),
        size out = N
      & forall i, (i < N)%N ->
          MatrixMode.H self *m nth 0 out i = nth 0 zs i
          /\ nth 0 zs i = MatrixMode.H self *m nth 0 xs i].
Proof.
move=> Q0 R0 draw0 _ /innovations_invertibleP inv.
set s := simulate self draw_mvn x0 N g.
have [Exs Ezs] := simulate_noise_free x0 N g Q0 R0 draw0.
have szs : size s.1.2 = N by rewrite Ezs size_map size_traject.
set tr := filter_run self (x0, P0) s.1.2.
exists (x0 :: s.1.1), s.1.2, s.2, (unzip1 tr), (unzip2 tr); split.
- by rewrite evolve_simulate.
- by rewrite estimate_run szs inv.
- by rewrite size_map size_filter_run.
move=> i lti; split.
  by apply: observed_filter_run; rewrite //= szs.
rewrite Exs Ezs -trajectS (nth_map 0) ?size_traject //.
rewrite (set_nth_default x0) ?size_traject // nth_traject //.
by rewrite (set_nth_default x0 0) ?size_traject ?ltnS 1?ltnW // nth_traject 1?ltnW.
Qed.

Lemma noise_free_estimate_witness :
  exists (xs : seq 'cV[rat]_4) (zs : seq 'cV[rat]_2) (g' : unit)
         (out : seq 'cV[rat]_4) (Ps : seq 'M[rat]_4),
    [/\ MatrixMode.evolve ballistic zero_mvn 0 2 tt = ret (xs, zs, g'),
        MatrixMode.estimate ballistic 0 1%:M zs = ret (out, Ps),
        size out = 2%N
      & forall i, (i < 2)%N ->
          MatrixMode.H ballistic *m nth 0 out i = nth 0 zs i
          /\ nth 0 zs i = MatrixMode.H ballistic *m nth 0 xs i].
Proof.
apply: (@noise_free_estimate rat ballistic unit zero_mvn 0 1%:M 2 tt) => //.
exact: ballistic_invertible.
Defined.

(** ** The scalar branches against the matrix branches on 1x1 matrices *)

Section ScalarMatrix.

Variable K : realFieldType.
Variable self : ScalarMode.KalmanFilter K.

Let F := ScalarMode.F self.
Let Q := ScalarMode.Q self.
Let H := ScalarMode.H self.
Let R := ScalarMode.R self.
Let u := ScalarMode.u self.

Local Notation up := (@scalar_mx K 1).

Lemma upD a b : up (a + b) = up a + up b.
Proof. exact: raddfD. Qed.

Lemma upB a b : up (a - b) = up a - up b.
Proof. exact: raddfB. Qed.

Lemma upM a b : up (a * b) = up a *m up b.
Proof. exact: scalar_mxM. Qed.

Lemma up_unit a : (up a \in unitmx) = (a != 0).
Proof. by rewrite unitmxE det_scalar1 unitfE. Qed.

Lemma nth_up (s : seq K) i : nth 0 (map up s) i = up (nth 0 s i).
Proof.
have [lti|lei] := ltnP i (size s); first exact: nth_map.
by rewrite !nth_default ?size_map // (raddf0 (@scalar_mx K 1)).
Qed.

Lemma step_up y : step (as_matrix self) (up y) = up (step1 self y).
Proof. by rewrite /step /step1 /= upD upM. Qed.

Lemma unstep_up y : unstep (as_matrix self) (up y) = up (unstep1 self y).
Proof. by rewrite /unstep /unstep1 /= invmx_scalar upM upB. Qed.

(** X8.  For [k >= 1] the scalar branch of [predict] and the matrix branch
    on the same parameters as 1x1 matrices return the same states. *)
Lemma predict_scalar_matrix x k :
  (0 < k)%N ->
  exists2 xs, ScalarMode.predict self x k = ret xs
            & MatrixMode.predict (as_matrix self) (up x) k = ret (map up xs).
Proof.
move=> k_gt0; exists (traject (step1 self) x k); first exact: predict1_traject.
rewrite predict_traject // (map_traject (f' := step (as_matrix self))) //.
by move=> y; rewrite step_up.
Qed.

(** X9.  For [k >= 1] the scalar branch of [rewind] and the matrix branch
    on the same parameters as 1x1 matrices return the same states, or
    both raise ([ZeroDivisionError] and [LinAlgError]). *)
Lemma rewind_scalar_matrix x k :
  (0 < k)%N ->
  match ScalarMode.rewind self x k with
  | inr xs => MatrixMode.rewind (as_matrix self) (up x) k = ret (map up xs)
  | inl _ => MatrixMode.rewind (as_matrix self) (up x) k = raise LinAlgError
  end.
Proof.
move=> k_gt0; have [F0|F0] := eqVneq F 0.
  case: k k_gt0 => [|[|k]] // _.
  by rewrite rewind1_singular // rewind_singular //= up_unit -/F F0 eqxx.
rewrite rewind1_traject // rewind_traject //= ?up_unit //.
rewrite (map_traject (f' := unstep (as_matrix self))) //.
by move=> y; rewrite unstep_up.
Qed.

(** One pass through the loop body of [estimate]. *)
Lemma estimate_body_scalar_matrix z i x P out Ps :
  match ScalarMode.estimate_body self z i (x, P, out, Ps) with
  | inr st =>
      MatrixMode.estimate_body (as_matrix self) (map up z) i
        (up x, up P, map up out, map up Ps)
      = ret (up st.1.1.1, up st.1.1.2, map up st.1.2, map up st.2)
  | inl _ =>
      MatrixMode.estimate_body (as_matrix self) (map up z) i
        (up x, up P, map up out, map up Ps)
      = raise LinAlgError
  end.
Proof.
rewrite /ScalarMode.estimate_body /MatrixMode.estimate_body.
rewrite /MatrixMode.innovation_cov /MatrixMode.predict_P /MatrixMode.predict_x.
rewrite /= !tr_scalar_mx nth_up -!(upM, upD, upB).
rewrite [F * P * F]mulrAC -expr2.
rewrite [H * _ * H]mulrAC -expr2.
rewrite /inv /pydiv1 up_unit; case: eqP => //= _.
by rewrite invmx_scalar -!(upM, upD, upB) !map_rcons.
Qed.

Lemma estimate_loop_scalar_matrix z N i x P out Ps :
  match for_loop (ScalarMode.estimate_body self z) i N (x, P, out, Ps) with
  | inr st =>
      for_loop (MatrixMode.estimate_body (as_matrix self) (map up z)) i N
        (up x, up P, map up out, map up Ps)
      = ret (up st.1.1.1, up st.1.1.2, map up st.1.2, map up st.2)
  | inl _ =>
      for_loop (MatrixMode.estimate_body (as_matrix self) (map up z)) i N
        (up x, up P, map up out, map up Ps)
      = raise LinAlgError
  end.
Proof.
elim: N i x P out Ps => [|N IH] i x P out Ps //.
rewrite !for_loopS.
have := estimate_body_scalar_matrix z i x P out Ps.
case: (ScalarMode.estimate_body _ _ _ _) => [e|[[[x' P'] out'] Ps']] -> //=.
exact: IH.
Qed.

(** X7.  The scalar branch of [estimate] and the matrix branch on the same
    parameters as 1x1 matrices return the same estimates and covariances,
    or both raise ([ZeroDivisionError] and [LinAlgError]). *)
Lemma estimate_scalar_matrix x0 P0 z :
  match ScalarMode.estimate self x0 P0 z with
  | inr r =>
      MatrixMode.estimate (as_matrix self) (up x0) (up P0) (map up z)
      = ret (map up r.1, map up r.2)
  | inl _ =>
      MatrixMode.estimate (as_matrix self) (up x0) (up P0) (map up z)
      = raise LinAlgError
  end.
Proof.
rewrite /ScalarMode.estimate /MatrixMode.estimate /for_range size_map.
have := estimate_loop_scalar_matrix z (size z) 0 x0 P0 [::] [::].
by case: (for_loop _ _ _ _) => [e|[[[x' P'] out'] Ps']] /= ->.
Qed.

End ScalarMatrix.

(** * Further properties of the methods *)

(** ** [estimate] on a concatenation, and what its covariances depend on *)

Section FilterRuns.

Variable K : realFieldType.
Variables n m : nat.
Variable self : MatrixMode.KalmanFilter K n m.

Lemma filter_run_cat xP z1 z2 :
  filter_run self xP (z1 ++ z2)
  = filter_run self xP z1
    ++ filter_run self (last xP (filter_run self xP z1)) z2.
Proof. by elim: z1 xP => [|zi z1 IH] xP //=; rewrite IH. Qed.

Lemma unzip2_filter_run xP zs :
  unzip2 (filter_run self xP zs)
  = traject (cov_step self) (cov_step self xP.2) (size zs).
Proof. by elim: zs xP => [|zi zs IH] xP //=; rewrite IH. Qed.

Lemma last_filter_run_cov xP zs :
  (last xP (filter_run self xP zs)).2 = iter (size zs) (cov_step self) xP.2.
Proof.
elim: zs xP => [|zi zs IH] xP //=.
by rewrite IH /= -iterSr.
Qed.

Lemma innovations_invertibleD P N1 N2 :
  innovations_invertible self P (N1 + N2)
  = innovations_invertible self P N1
    && innovations_invertible self (iter N1 (cov_step self) P) N2.
Proof.
elim: N1 P => [|N1 IH] P //=.
by rewrite IH -andbA -iterSr.
Qed.

End FilterRuns.

(** X1.  Filtering [z1 ++ z2] is filtering [z1] and then filtering [z2] from
    the last estimate and covariance reached (the initial pair if [z1] is
    empty); an exception in either part is the exception of the whole. *)
Theorem estimate_cat (K : realFieldType) (n m : nat)
    (self : MatrixMode.KalmanFilter K n m)
    (x0 : 'cV[K]_n) (P0 : 'M[K]_n) (z1 z2 : seq 'cV[K]_m) :
  MatrixMode.estimate self x0 P0 (z1 ++ z2)
  = (r1 <- MatrixMode.estimate self x0 P0 z1 ;;
     r2 <- MatrixMode.estimate self (last x0 r1.1) (last P0 r1.2) z2 ;;
     ret (r1.1 ++ r2.1, r1.2 ++ r2.2)).
Proof.
rewrite !estimate_run size_cat innovations_invertibleD.
case inv1: (innovations_invertible self P0 (size z1)) => //=.
set tr1 := filter_run self (x0, P0) z1.
have -> : last x0 (unzip1 tr1) = (last (x0, P0) tr1).1.
  exact: (last_map fst tr1 (x0, P0)).
have eP : last P0 (unzip2 tr1) = (last (x0, P0) tr1).2.
  exact: (last_map snd tr1 (x0, P0)).
rewrite estimate_run eP last_filter_run_cov /=.
case: ifP => //= _.
rewrite -[iter _ _ _]/(iter (size z1) (cov_step self) (x0, P0).2).
rewrite -last_filter_run_cov -surjective_pairing filter_run_cat.
by rewrite /unzip1 /unzip2 !map_cat.
Qed.

(** X2.  The covariances that [estimate] returns, and whether it raises, depend
    on [P0] and on the number of observations only: not on the
    observations themselves, nor on the initial estimate. *)
Theorem estimate_covariances_offline (K : realFieldType) (n m : nat)
    (self : MatrixMode.KalmanFilter K n m)
    (x0 x0' : 'cV[K]_n) (P0 : 'M[K]_n) (z z' : seq 'cV[K]_m) :
  size z = size z' ->
  match MatrixMode.estimate self x0 P0 z, MatrixMode.estimate self x0' P0 z' with
  | inr r, inr r' => r.2 = r'.2
  | inl e, inl e' => e = e'
  | _, _ => False
  end.
Proof.
move=> sz; rewrite !estimate_run -sz; case: ifP => //= _.
by rewrite !unzip2_filter_run sz.
Qed.

Lemma estimate_covariances_offline_witness :
  match MatrixMode.estimate noisy_drift 0 1%:M [:: const_mx 1],
        MatrixMode.estimate noisy_drift (const_mx 3) 1%:M [:: const_mx 2] with
  | inr r, inr r' => r.2 = r'.2
  | inl e, inl e' => e = e'
  | _, _ => False
  end.
Proof.
exact: (@estimate_covariances_offline rat 4 2 noisy_drift 0 (const_mx 3) 1%:M
          [:: const_mx 1] [:: const_mx 2] (erefl 1%N)).
Defined.

(** ** When [estimate] cannot fail *)

Section PositiveDefinite.

Variable K : realFieldType.

(** A positive definite matrix is invertible: a vector of its kernel has
    a zero quadratic form. *)
Lemma pd_unitmx (n : nat) (A : 'M[K]_n) : pd A -> A \in unitmx.
Proof.
move=> pdA; rewrite -row_free_unit -kermx_eq0.
apply/rowV0P => v /sub_kermxP vA; apply/eqP/negPn/negP => v0.
have vT0 : v^T != 0 by rewrite -(inj_eq trmx_inj) trmxK trmx0.
have := pdA v^T vT0.
by rewrite /quad trmxK vA mul0mx mxE ltxx.
Qed.

Lemma pd_sandwich (p q : nat) (A : 'M[K]_(p, q)) (P : 'M[K]_q) (B : 'M[K]_p) :
  psd P -> pd B -> pd (A *m P *m A^T + B).
Proof.
move=> pP pB a a0; rewrite quadD quad_sandwich.
by apply: ltr_wpDl; [exact: pP | exact: pB].
Qed.

Variables n m : nat.
Variable self : MatrixMode.KalmanFilter K n m.

Hypothesis sym_psd_Q : sym_psd (MatrixMode.Q self).
Hypothesis sym_psd_R : sym_psd (MatrixMode.R self).
Hypothesis pd_R : pd (MatrixMode.R self).

Lemma innovation_unit_pd P :
  sym_psd P -> innovation_at self P 0 \in unitmx.
Proof.
move=> sP; apply: pd_unitmx; apply: pd_sandwich => //.
by case: (sym_psd_predict sym_psd_Q sP).
Qed.

Lemma innovations_invertible_pd P N :
  sym_psd P -> innovations_invertible self P N.
Proof.
elim: N P => [|N IH] P sP //=.
have Su := innovation_unit_pd sP.
by rewrite Su /=; apply: IH; exact: sym_psd_cov_step.
Qed.

End PositiveDefinite.

(** X3.  If the observation-noise covariance [R] is symmetric positive
    definite and [P0] and [Q] are symmetric positive semi-definite, then
    [estimate] never raises, whatever the observations: it returns one
    estimate and one covariance per observation, every covariance
    symmetric positive semi-definite. *)
Theorem estimate_total (K : realFieldType) (n m : nat)
    (self : MatrixMode.KalmanFilter K n m)
    (x0 : 'cV[K]_n) (P0 : 'M[K]_n) (z : seq 'cV[K]_m) :
  sym_psd P0 -> sym_psd (MatrixMode.Q self) ->
  symmetric (MatrixMode.R self) -> pd (MatrixMode.R self) ->
  exists (out : seq 'cV[K]_n) (Ps : seq 'M[K]_n),
    [/\ MatrixMode.estimate self x0 P0 z = ret (out, Ps),
        size out = size z, size Ps = size z
      & forall P, P \in Ps -> sym_psd P].
Proof.
move=> sP0 sQ sR pR.
have psdR : sym_psd (MatrixMode.R self).
  by split=> // a; have [->|/pR/ltW //] := eqVneq a 0; rewrite /quad mulmx0 mxE.
have inv := innovations_invertible_pd sQ psdR pR (size z) sP0.
set tr := filter_run self (x0, P0) z.
exists (unzip1 tr), (unzip2 tr); split.
- by rewrite estimate_run inv.
- by rewrite size_map size_filter_run.
- by rewrite size_map size_filter_run.
move=> P /mapP[yP yP_tr ->].
exact: (sym_psd_filter_run sQ psdR (xP := (x0, P0)) inv sP0 yP_tr).
Qed.

Lemma pd1 (K : realFieldType) (n : nat) : pd (1%:M : 'M[K]_n).
Proof.
move=> a a0; rewrite /quad mulmx1 mxE.
have [i ai0] : exists i, a i ord0 != 0.
  apply/existsP; apply: contraNT a0; rewrite negb_exists => /forallP a0.
  apply/eqP/matrixP => i j; rewrite ord1 mxE.
  by have := a0 i; rewrite negbK => /eqP.
rewrite (bigD1 i) //= ltr_pwDl //.
  by rewrite mxE -expr2 exprn_even_gt0.
by apply: sumr_ge0 => j _; rewrite mxE -expr2 sqr_ge0.
Qed.

Lemma estimate_total_witness :
  exists (out : seq 'cV[rat]_4) (Ps : seq 'M[rat]_4),
    [/\ MatrixMode.estimate noisy_drift 0 1%:M [:: const_mx 1; const_mx 2]
        = ret (out, Ps),
        size out = 2%N, size Ps = 2%N
      & forall P, P \in Ps -> sym_psd P].
Proof.
apply: (@estimate_total rat 4 2 noisy_drift 0 1%:M
          [:: const_mx 1; const_mx 2]).
- exact: sym_psd1.
- exact: sym_psd0.
- exact: tr_scalar_mx.
- exact: pd1.
Defined.

(** ** Exact observations *)

Section ExactObservations.

Variable K : realFieldType.
Variables n m : nat.
Variable self : MatrixMode.KalmanFilter K n m.

Let H := MatrixMode.H self.

Hypothesis R0 : MatrixMode.R self = 0.

Lemma observed_filter_run_P xP zs i :
  innovations_invertible self xP.2 (size zs) -> (i < size zs)%N ->
  H *m nth 0 (unzip2 (filter_run self xP zs)) i = 0.
Proof.
elim: zs xP i => [|zi zs IH] xP [|i] //= /andP[Su inv] lti.
  exact: observed_update_P.
exact: IH.
Qed.

End ExactObservations.

(** X4.  If [R] is zero and every innovation covariance is invertible, then
    whatever [Q] and the dimensions, every estimate that [estimate]
    returns reproduces its observation, [H est_i = z_i], and every
    covariance it returns is zero on the observed components,
    [H P_i = 0]. *)
Theorem estimate_exact_observations (K : realFieldType) (n m : nat)
    (self : MatrixMode.KalmanFilter K n m)
    (x0 : 'cV[K]_n) (P0 : 'M[K]_n) (z : seq 'cV[K]_m) :
  MatrixMode.R self = 0 ->
  (forall j, (j < size z)%N -> innovation_at self P0 j \in unitmx) ->
  exists (out : seq 'cV[K]_n) (Ps : seq 'M[K]_n),
    [/\ MatrixMode.estimate self x0 P0 z = ret (out, Ps)
      & forall i, (i < size z)%N ->
          MatrixMode.H self *m nth 0 out i = nth 0 z i
          /\ MatrixMode.H self *m nth 0 Ps i = 0].
Proof.
move=> R0 /innovations_invertibleP inv.
set tr := filter_run self (x0, P0) z.
exists (unzip1 tr), (unzip2 tr); split; first by rewrite estimate_run inv.
move=> i lti; split.
  exact: (observed_filter_run R0 (xP := (x0, P0))).
exact: (observed_filter_run_P R0 (xP := (x0, P0))).
Qed.

Lemma estimate_exact_observations_witness :
  exists (out : seq 'cV[rat]_4) (Ps : seq 'M[rat]_4),
    [/\ MatrixMode.estimate drift 0 1%:M [:: const_mx 3] = ret (out, Ps)
      & forall i, (i < 1)%N ->
          MatrixMode.H drift *m nth 0 out i = nth 0 [:: const_mx 3] i
          /\ MatrixMode.H drift *m nth 0 Ps i = 0].
Proof.
apply: (@estimate_exact_observations rat 4 2 drift 0 1%:M [:: const_mx 3]) => //.
by case=> // _; rewrite drift_first_innovation unitmx1.
Defined.

(** ** The scalar branch of [estimate] *)

Section ScalarFilter.

Variable K : realFieldType.
Variable self : ScalarMode.KalmanFilter K.

Let F := ScalarMode.F self.
Let Q := ScalarMode.Q self.
Let H := ScalarMode.H self.
Let R := ScalarMode.R self.

(** The updated variance in closed form. *)
Lemma update1_closed_form (new_P : K) :
  H ^+ 2 * new_P + R != 0 ->
  (1 - new_P * H * (H ^+ 2 * new_P + R)^-1 * H) * new_P
  = new_P * R / (H ^+ 2 * new_P + R).
Proof. by move=> Sk0; field. Qed.

Lemma estimate1_body_ok z i x P out Ps :
  0 <= P -> 0 <= Q -> 0 < R ->
  exists x' P' : K,
    ScalarMode.estimate_body self z i (x, P, out, Ps)
    = ret (x', P', rcons out x', rcons Ps P')
    /\ 0 <= P'.
Proof.
move=> P_ge0 Q_ge0 R_gt0; rewrite /ScalarMode.estimate_body.
set new_P := ScalarMode.F self ^+ 2 * P + ScalarMode.Q self.
have new_P_ge0 : 0 <= new_P.
  by rewrite addr_ge0 // mulr_ge0 // sqr_ge0.
have Sk_gt0 : 0 < H ^+ 2 * new_P + R.
  by rewrite ltr_wpDl // mulr_ge0 // sqr_ge0.
rewrite /pydiv1 -/H -/R (gt_eqF Sk_gt0) /=.
eexists; eexists; split; first by [].
rewrite update1_closed_form ?(gt_eqF Sk_gt0) //.
by rewrite divr_ge0 ?mulr_ge0 // ltW.
Qed.

Lemma estimate1_loop z N i x P out Ps :
  0 <= P -> 0 <= Q -> 0 < R ->
  exists (x' P' : K) (out' Ps' : seq K),
    [/\ for_loop (ScalarMode.estimate_body self z) i N (x, P, out, Ps)
        = ret (x', P', out ++ out', Ps ++ Ps'),
        size out' = N, size Ps' = N
      & all (fun p => 0 <= p) Ps'].
Proof.
move=> P_ge0 Q_ge0 R_gt0; elim: N i x P out Ps P_ge0 => [|N IH] i x P out Ps P_ge0.
  by exists x, P, [::], [::]; rewrite /= !cats0.
have [x1 [P1 [E P1_ge0]]] := estimate1_body_ok z i x out Ps P_ge0 Q_ge0 R_gt0.
rewrite for_loopS E /=.
have [x' [P' [out' [Ps' [-> so sP all_ge0]]]]] :=
  IH i.+1 x1 P1 (rcons out x1) (rcons Ps P1) P1_ge0.
exists x', P', (x1 :: out'), (P1 :: Ps').
by rewrite /= so sP P1_ge0 all_ge0 !cat_rcons.
Qed.

End ScalarFilter.

(** X5.  In scalar mode, if [R > 0] and [P0 >= 0], [Q >= 0], then [estimate]
    never raises, whatever the observations: it returns one estimate and
    one variance per observation, and every variance is non-negative. *)
Theorem estimate1_total (K : realFieldType) (self : ScalarMode.KalmanFilter K)
    (x0 P0 : K) (z : seq K) :
  0 <= P0 -> 0 <= ScalarMode.Q self -> 0 < ScalarMode.R self ->
  exists out Ps : seq K,
    [/\ ScalarMode.estimate self x0 P0 z = ret (out, Ps),
        size out = size z, size Ps = size z
      & forall P, P \in Ps -> 0 <= P].
Proof.
move=> P_ge0 Q_ge0 R_gt0.
have [x' [P' [out [Ps [E so sP all_ge0]]]]] :=
  estimate1_loop z (size z) 0 x0 [::] [::] P_ge0 Q_ge0 R_gt0.
exists out, Ps; split=> //; first by rewrite /ScalarMode.estimate /for_range E.
by move=> P; move/allP: all_ge0; exact.
Qed.

Lemma estimate1_total_witness :
  exists out Ps : seq rat,
    [/\ ScalarMode.estimate (ScalarMode.Build 1 0 1 1 1) 0 1 [:: 3; 4]
        = ret (out, Ps),
        size out = 2%N, size Ps = 2%N
      & forall P, P \in Ps -> 0 <= P].
Proof.
exact: (@estimate1_total rat (ScalarMode.Build 1 0 1 1 1) 0 1 [:: 3; 4]
          isT isT isT).
Defined.

(** ** More on the scalar branch of [evolve] *)

(** X12.  In scalar mode a negative [Q] or [R] makes [evolve] raise
    ([ValueError], from [np.random.normal]) as soon as one step is asked
    for: the value is passed as the scale of the draw. *)
Theorem evolve1_negative_scale (K : realFieldType)
    (self : ScalarMode.KalmanFilter K) (G : Type) (gauss : G -> K * G)
    (x0 : K) (N : nat) (g : G) :
  (ScalarMode.Q self < 0) || (ScalarMode.R self < 0) -> (0 < N)%N ->
  ScalarMode.evolve self gauss x0 N g = raise ValueError.
Proof.
case: N => // N neg _.
rewrite /ScalarMode.evolve /for_range for_loopS /ScalarMode.evolve_body.
rewrite {1}/normal; case: ifP => // Qneg; move: neg; rewrite Qneg /= => Rneg.
by case: (gauss g) => e g1 /=; rewrite /normal Rneg.
Qed.

Lemma evolve1_negative_scale_witness :
  ScalarMode.evolve (ScalarMode.Build (1 : rat) 0 1 (-1) 1)
    (fun g : unit => (0, g)) 0 3 tt
  = raise ValueError.
Proof.
exact: (@evolve1_negative_scale rat (ScalarMode.Build 1 0 1 (-1) 1) unit
          (fun g => (0, g)) 0 3 tt isT isT).
Defined.

Lemma evolve1_restarts_witness :
  exists xs zs : seq rat,
    [/\ ScalarMode.evolve (ScalarMode.Build 1 2 1 3 1)
          (fun k : nat => (k%:R, k.+1)) 5 3 0%N
        = ret (xs, zs, after_draws (fun k : nat => (k%:R : rat, k.+1)) 3.*2 0%N),
        size xs = 4%N, size zs = 3%N, nth 0 xs 0 = 5
      & forall t, (t < 3)%N ->
          nth 0 xs t.+1
          = 1 * 5 + 1
            + 2 * ((after_draws (fun k : nat => (k%:R : rat, k.+1)) t.*2 0%N)%:R)
          /\ nth 0 zs t
             = 1 * 5
               + 3 * ((after_draws (fun k : nat => (k%:R : rat, k.+1))
                         t.*2.+1 0%N)%:R)].
Proof.
exact: (@evolve1_restarts rat (ScalarMode.Build 1 2 1 3 1) nat
          (fun k => (k%:R, k.+1)) 5 3 0%N isT isT).
Defined.

(** ** Witnesses for the agreement of the scalar and matrix branches *)

Lemma predict_scalar_matrix_witness :
  exists2 xs, ScalarMode.predict counter1 0 3 = ret xs
            & MatrixMode.predict (as_matrix counter1) 0%:M 3
              = ret (map (@scalar_mx rat 1) xs).
Proof. exact: (@predict_scalar_matrix rat counter1 0 3 isT). Defined.

Lemma rewind_scalar_matrix_witness :
  match ScalarMode.rewind counter1 5 3 with
  | inr xs =>
      MatrixMode.rewind (as_matrix counter1) 5%:M 3
      = ret (map (@scalar_mx rat 1) xs)
  | inl _ => MatrixMode.rewind (as_matrix counter1) 5%:M 3 = raise LinAlgError
  end.
Proof. exact: (@rewind_scalar_matrix rat counter1 5 3 isT). Defined.

(** ** Horizon 0, and forecasting in two stages *)

(** X13.  With [k = 0] the loops do not run and the list holds the single state
    [x]: the scalar branches return it ([rewind] even for [F = 0]), while
    the matrix branches fail to reshape it into 0 rows and raise
    [ValueError] (unless the state has no component at all). *)
Theorem predict_rewind_zero (K : realFieldType) (n m : nat)
    (self : MatrixMode.KalmanFilter K n m) (self1 : ScalarMode.KalmanFilter K)
    (x : 'cV[K]_n) (x1 : K) :
  [/\ MatrixMode.predict self x 0
      = if n == 0%N then ret [::] else raise ValueError,
      MatrixMode.rewind self x 0
      = if n == 0%N then ret [::] else raise ValueError,
      ScalarMode.predict self1 x1 0 = ret [:: x1]
    & ScalarMode.rewind self1 x1 0 = ret [:: x1]].
Proof.
split=> //.
- by rewrite /MatrixMode.predict /for_range /= /reshape /= mul1n mul0n.
- by rewrite /MatrixMode.rewind /for_range /= /reshape /= mul1n mul0n.
Qed.

(** X14.  Forecasting [j + k] states is forecasting [j] states and then [k]
    more from one transition after the last of them, in both modes. *)
Theorem predict_cat (K : realFieldType) (n m : nat)
    (self : MatrixMode.KalmanFilter K n m) (self1 : ScalarMode.KalmanFilter K)
    (x : 'cV[K]_n) (x1 : K) (j k : nat) :
  (0 < j)%N -> (0 < k)%N ->
  (exists xs ys : seq 'cV[K]_n,
     [/\ MatrixMode.predict self x j = ret xs,
         MatrixMode.predict self
           (MatrixMode.F self *m last x xs + MatrixMode.u self) k = ret ys
       & MatrixMode.predict self x (j + k) = ret (xs ++ ys)])
  /\
  (exists xs ys : seq K,
     [/\ ScalarMode.predict self1 x1 j = ret xs,
         ScalarMode.predict self1
           (ScalarMode.F self1 * last x1 xs + ScalarMode.u self1) k = ret ys
       & ScalarMode.predict self1 x1 (j + k) = ret (xs ++ ys)]).
Proof.
case: j => // j _ k_gt0; split.
- exists (traject (step self) x j.+1), (traject (step self) (iter j.+1 (step self) x) k).
  split; first exact: predict_traject.
    by rewrite last_trajectS -/(step self _) -iterS predict_traject.
  by rewrite predict_traject ?addn_gt0 // trajectD.
- exists (traject (step1 self1) x1 j.+1), (traject (step1 self1) (iter j.+1 (step1 self1) x1) k).
  split; first exact: predict1_traject.
    by rewrite last_trajectS -/(step1 self1 _) -iterS predict1_traject.
  by rewrite predict1_traject ?addn_gt0 // trajectD.
Qed.

Lemma predict_cat_witness :
  (exists xs ys : seq 'cV[rat]_4,
     [/\ MatrixMode.predict drift 0 2 = ret xs,
         MatrixMode.predict drift
           (MatrixMode.F drift *m last 0 xs + MatrixMode.u drift) 3 = ret ys
       & MatrixMode.predict drift 0 (2 + 3) = ret (xs ++ ys)])
  /\
  (exists xs ys : seq rat,
     [/\ ScalarMode.predict counter1 0 2 = ret xs,
         ScalarMode.predict counter1
           (ScalarMode.F counter1 * last 0 xs + ScalarMode.u counter1) 3 = ret ys
       & ScalarMode.predict counter1 0 (2 + 3) = ret (xs ++ ys)]).
Proof. exact: (@predict_cat rat 4 2 drift counter1 0 0 2 3 isT isT). Defined.

(** ** The projectile model of [problem2] and the run of [problem5] *)

Section ScalarMatrices.

Variable K : realFieldType.

Lemma quad_scalar (n : nat) (a : K) (v : 'cV[K]_n) :
  quad a%:M v = a * quad 1%:M v.
Proof. by rewrite /quad mul_mx_scalar -scalemxAl mxE mulmx1. Qed.

Lemma sym_psd_scalar (n : nat) (a : K) : 0 <= a -> sym_psd (a%:M : 'M[K]_n).
Proof.
move=> a_ge0; split; first exact: tr_scalar_mx.
move=> v; rewrite quad_scalar mulr_ge0 //.
by case: (sym_psd1 K n) => _; exact.
Qed.

Lemma pd_scalar (n : nat) (a : K) : 0 < a -> pd (a%:M : 'M[K]_n).
Proof.
by move=> a_gt0 v v0; rewrite quad_scalar mulr_gt0 //; exact: pd1.
Qed.

Lemma tenth_gt0 : 0 < tenth K.
Proof. by rewrite /tenth invr_gt0 ltr0n. Qed.

Lemma problem2_F_unit : MatrixMode.F (problem2 K) \in unitmx.
Proof. by rewrite unitmxE /= det_ublock !det1 mulr1 unitr1. Qed.

Lemma problem2_Q : sym_psd (MatrixMode.Q (problem2 K)).
Proof. by rewrite /= scalemx1; apply: sym_psd_scalar; exact: ltW tenth_gt0. Qed.

Lemma problem2_R_pd : pd (MatrixMode.R (problem2 K)).
Proof. by rewrite /= scalemx1; apply: pd_scalar; rewrite ltr0n. Qed.

Lemma problem2_R : sym_psd (MatrixMode.R (problem2 K)).
Proof. by rewrite /= scalemx1; apply: sym_psd_scalar; rewrite ler0n. Qed.

Lemma problem5_P0 :
  sym_psd (10%:R ^+ 6 *: MatrixMode.Q (problem2 K)).
Proof.
rewrite /= scalemx1 -mul_scalar_mx -scalar_mxM; apply: sym_psd_scalar.
by rewrite mulr_ge0 ?exprn_ge0 ?ler0n // ltW // tenth_gt0.
Qed.

End ScalarMatrices.

(** X15.  On the projectile model of [problem2] no method fails: [evolve]
    returns for every horizon, [predict] and [rewind] for every [k >= 1]
    (the transition matrix is invertible), and [estimate] for every
    symmetric positive semi-definite [P0] and every observation
    sequence (the observation noise is positive definite). *)
Theorem problem2_never_raises (K : realFieldType) (G : Type)
    (draw_mvn : G -> forall d : nat, 'M[K]_d -> 'cV[K]_d * G)
    (x : 'cV[K]_(2 + 2)) (P0 : 'M[K]_(2 + 2)) (z : seq 'cV[K]_2)
    (N k : nat) (g : G) :
  (0 < k)%N -> sym_psd P0 ->
  [/\ ~~ raises (MatrixMode.evolve (problem2 K) draw_mvn x N g),
      ~~ raises (MatrixMode.predict (problem2 K) x k),
      ~~ raises (MatrixMode.rewind (problem2 K) x k)
    & ~~ raises (MatrixMode.estimate (problem2 K) x P0 z)].
Proof.
move=> k_gt0 sP0; split.
- by rewrite (evolve_simulate draw_mvn (problem2 K)).
- by rewrite predict_traject.
- by rewrite rewind_traject // problem2_F_unit.
rewrite estimate_run.
by rewrite (innovations_invertible_pd (problem2_Q K) (problem2_R K)
              (@problem2_R_pd K)).
Qed.

Lemma problem2_never_raises_witness :
  [/\ ~~ raises (MatrixMode.evolve (problem2 rat) zero_mvn 0 7 tt),
      ~~ raises (MatrixMode.predict (problem2 rat) 0 450),
      ~~ raises (MatrixMode.rewind (problem2 rat) 0 250)
    & ~~ raises (MatrixMode.estimate (problem2 rat) 0 1%:M [:: 0; 0])].
Proof.
have k_gt0 : (0 < 250)%N by [].
have [ev _ rw es] :=
  @problem2_never_raises rat unit zero_mvn 0 1%:M [:: 0; 0] 7 250 tt
    k_gt0 (sym_psd1 rat (2 + 2)).
have [_ pr _ _] :=
  @problem2_never_raises rat unit zero_mvn 0 1%:M [:: 0; 0] 7 450 tt
    isT (sym_psd1 rat (2 + 2)).
by split.
Defined.

Section Arrays.

Variable K : realFieldType.

Lemma reshape_size (d k : nat) (rows : seq 'cV[K]_d) :
  size rows = k -> reshape k rows = ret rows.
Proof. by move=> <-; rewrite /reshape eqxx take_size. Qed.

Lemma size_slice (T : Type) (i j : nat) (a : seq T) :
  (j <= size a)%N -> size (slice i j a) = (j - i)%N.
Proof.
move=> lej; rewrite /slice size_take size_drop.
by case: ltnP => // ge; apply/eqP; rewrite eqn_leq ge leq_sub2r.
Qed.

(** The differences of consecutive rows sum to the last row minus the
    first. *)
Lemma sum_pairmap_sub (d : nat) (x : 'cV[K]_d) (s : seq 'cV[K]_d) :
  \sum_(r <- pairmap (fun p q => q - p) x s) r = last x s - x.
Proof.
elim: s x => [|y s IH] x /=; first by rewrite big_nil subrr.
by rewrite big_cons IH addrC subrKA.
Qed.

End Arrays.

(** X16.  The initial estimate of [problem5], on at least nine observations:
    its position is the first observation, and its velocity, the mean of
    the eight finite differences over the time step [.1], is the ninth
    observation minus the first over [8 * .1]. *)
Theorem initial_estimate_telescopes (K : realFieldType)
    (z_slice : seq 'cV[K]_2) :
  (8 < size z_slice)%N ->
  initial_estimate z_slice
  = col_mx (nth 0 z_slice 0)
           ((8%:R * tenth K)^-1 *: (nth 0 z_slice 8 - nth 0 z_slice 0)).
Proof.
case: z_slice => [|z0 zs] // szs; rewrite /initial_estimate /slice /=.
have s8 : size (take 8 zs) = 8%N by rewrite size_takel.
congr (col_mx _ _).
rewrite /mean size_map size_pairmap s8.
rewrite big_map -scaler_sumr sum_pairmap_sub scalerA -invfM.
congr (_ *: (_ - _)).
by rewrite (last_nth 0) s8 /= nth_take.
Qed.

Lemma initial_estimate_telescopes_witness :
  initial_estimate (mkseq (fun i => const_mx (i%:R : rat)) 9)
  = col_mx (nth 0 (mkseq (fun i => const_mx i%:R) 9) 0)
           ((8%:R * tenth rat)^-1
            *: (nth 0 (mkseq (fun i => const_mx i%:R) 9) 8
                - nth 0 (mkseq (fun i => const_mx i%:R) 9) 0)).
Proof.
exact: (@initial_estimate_telescopes rat
          (mkseq (fun i => const_mx (i%:R : rat)) 9) isT).
Defined.

(** X17.  [problem5(plot=False)] never raises, whatever the generator draws: it
    returns 600 estimates and 600 covariances (all symmetric positive
    semi-definite) for the 600 sliced observations, with the 1251
    simulated states. *)
Theorem problem5_returns (K : realFieldType) (G : Type)
    (draw_mvn : G -> forall d : nat, 'M[K]_d -> 'cV[K]_d * G) (g : G) :
  exists (out : seq 'cV[K]_(2 + 2)) (Ps : seq 'M[K]_(2 + 2))
         (xs : seq 'cV[K]_(2 + 2)) (zs : seq 'cV[K]_2) (g' : G),
    [/\ problem5 draw_mvn g = ret (out, Ps, xs, zs, g'),
        size out = 600%N, size Ps = 600%N /\ (forall P, P \in Ps -> sym_psd P),
        size xs = 1251%N
      & size zs = 600%N].
Proof.
rewrite /problem5 (evolve_simulate draw_mvn (problem2 K)).
set start := col_mx _ _.
have [] := size_simulate draw_mvn (problem2 K) start 1250 g.
move: (simulate _ _ _ _ _) => [[x z] g'] /= sx sz.
rewrite (reshape_size sz) /= (@reshape_size K _ 1251) /= ?sx //.
set z_slice := slice 200 800 z.
have s_slice : size z_slice = 600%N by rewrite size_slice ?sz.
set x0 := initial_estimate z_slice.
set P0 := _ *: _.
have inv := innovations_invertible_pd (problem2_Q K) (problem2_R K)
              (@problem2_R_pd K) (size z_slice) (problem5_P0 K).
rewrite estimate_run inv /=.
set tr := filter_run _ _ _.
exists (unzip1 tr), (unzip2 tr), (start :: x), z_slice, g'; split=> //.
- by rewrite size_map size_filter_run.
- split; first by rewrite size_map size_filter_run.
  move=> P /mapP[yP yP_tr ->].
  exact: (sym_psd_filter_run (problem2_Q K) (problem2_R K)
            (xP := (x0, P0)) inv (problem5_P0 K) yP_tr).
- by rewrite /= sx.
Qed.
